(** * auth-api.js: registration, login and bearer-token authorization

    A shallow embedding of the three Express handlers of [src/auth-api.js]
    ([POST /api/register], [POST /api/login], [GET /api/protegido] behind the
    [verifyToken] middleware) over the in-memory [users] array, followed by
    the properties of the specification that concern them.

    Conventions of the embedding.
    - A value read from [req.body] or [req.headers] is a [field]: [None] for
      [undefined], [Some s] for a string.  Usernames and passwords are strings
      in the data model of the specification; other JSON types are outside it.
    - [Date.now()] is an explicit argument, in milliseconds.
    - The randomness of [bcrypt.hash] is an explicit [salt] argument.
    - A handler returns the response it sends and the [users] array it leaves.
    - An [await] ends a run-to-completion segment of the event loop: the
      register handler is written as the segment before the [await] and the
      segment after it, so that interleavings can be enumerated. *)

From Stdlib Require Import String Ascii List ZArith NArith Bool Lia.
From Stdlib Require Import Permutation.
Import ListNotations.

Open Scope string_scope.
Open Scope Z_scope.

(** ** JavaScript strings and fields *)

Module JS.

Definition field := option string.

(** [!v]: [undefined] and the empty string are falsy. *)
Definition falsy (v : field) : bool :=
  match v with
  | None => true
  | Some s => String.eqb s ""
  end.

(** [a || b] on strings, as in [process.env.X || 'default']. *)
Definition or_else (v : field) (default : string) : string :=
  match v with
  | None => default
  | Some s => if String.eqb s "" then default else s
  end.

(** [s.split(sep)] for a one-character separator. *)
Fixpoint split (sep : ascii) (s : string) : list string :=
  match s with
  | EmptyString => [EmptyString]
  | String c rest =>
      if Ascii.eqb c sep then EmptyString :: split sep rest
      else match split sep rest with
           | piece :: pieces => String c piece :: pieces
           | [] => [String c EmptyString]
           end
  end.

(** [arr[i]]: [undefined] past the end. *)
Definition index (arr : list string) (i : nat) : field := nth_error arr i.

(** The part of [s] after its first [sep]: [undefined] when there is none. *)
Fixpoint after_first (sep : ascii) (s : string) : field :=
  match s with
  | EmptyString => None
  | String c rest => if Ascii.eqb c sep then Some rest else after_first sep rest
  end.

Fixpoint all_chars (p : ascii -> bool) (s : string) : bool :=
  match s with
  | EmptyString => true
  | String c rest => p c && all_chars p rest
  end.

Definition lacks (sep : ascii) (s : string) : bool :=
  all_chars (fun c => negb (Ascii.eqb c sep)) s.

End JS.

Import JS.

(** [pieces.join(sep)] for a one-character separator. *)
Fixpoint join (sep : ascii) (pieces : list string) : string :=
  match pieces with
  | [] => EmptyString
  | [piece] => piece
  | piece :: rest => piece ++ String sep (join sep rest)
  end.

(** ** JSON bodies and responses *)

#[warnings="-register-all"]
Inductive json : Type :=
| JStr (s : string)
| JNum (n : Z)
| JObj (members : list (string * json)).

Record response := { status : Z; body : json }.

(** [res.status(code).json({ message: text })] *)
Definition reply (code : Z) (text : string) : response :=
  {| status := code; body := JObj [("message", JStr text)] |}.

(** The value of key [k] in a JSON object body, if any. *)
Definition member (k : string) (b : json) : option json :=
  match b with
  | JObj members =>
      match find (fun kv => String.eqb (fst kv) k) members with
      | Some kv => Some (snd kv)
      | None => None
      end
  | _ => None
  end.

(** ** The account store: [const users = []] *)

Record user := { id : Z; username : string; password : string }.

Definition users := list user.

(** [users.find(user => user.username === username)] *)
Definition find_user (us : users) (name : string) : option user :=
  find (fun u => String.eqb (username u) name) us.

(** The record that [users.push] appends: [id: users.length + 1]. *)
Definition new_user (us : users) (name hashed : string) : user :=
  {| id := Z.of_nat (List.length us) + 1; username := name; password := hashed |}.

(** The store invariant of the specification (section 3), with the bound
    on ids that makes it inductive. *)
Definition store_ok (us : users) : Prop :=
  NoDup (map id us) /\ NoDup (map username us) /\
  Forall (fun u => id u <= Z.of_nat (List.length us)) us.

(** ** The password hasher *)

(** Modelled from the spec: the [bcrypt] package (PasswordHasher, section 4.1)
    is not under src/.  [bcrypt_hash data rounds salt] and
    [bcrypt_compare data hashed] are [None] when the promise rejects;
    [bcrypt_compare] recognises the hashes that [bcrypt_hash] produced. *)
Class PasswordHasher := {
  bcrypt_hash : string -> Z -> string -> option string;
  bcrypt_compare : string -> string -> option bool;
  compare_hash : forall data rounds salt hashed,
      bcrypt_hash data rounds salt = Some hashed ->
      bcrypt_compare data hashed = Some true
}.

(** ** Tokens *)

(** The decoded payload: what [jwt.verify] returns and [req.user] holds. *)
Record claims := { sub_id : Z; sub_username : string; iat : Z; exp : Z }.

Definition claims_json (c : claims) : json :=
  JObj [("id", JNum (sub_id c)); ("username", JStr (sub_username c));
        ("iat", JNum (iat c)); ("exp", JNum (exp c))].

(** The two success bodies. *)
Definition login_ok (token : string) : response :=
  {| status := 200;
     body := JObj [("message", JStr "Autenticación satisfactoria");
                   ("token", JStr token)] |}.

Definition protegido_ok (req_user : claims) : response :=
  {| status := 200;
     body := JObj [("message", JStr "Ruta protegida accedida exitosamente");
                   ("user", claims_json req_user)] |}.

(** The base64url alphabet: letters, digits, [-] and [_]. *)
Definition is_base64url (c : ascii) : bool :=
  let n := N_of_ascii c in
  (((65 <=? n) && (n <=? 90)) || ((97 <=? n) && (n <=? 122)) ||
   ((48 <=? n) && (n <=? 57)) || (n =? 45) || (n =? 95))%N.

Definition base64url (s : string) : bool := all_chars is_base64url s.

(** Modelled from the spec: the primitives under the [jsonwebtoken] package
    (sections 4.3, 4.4 and 6), which is not under src/: a keyed MAC over the
    signing input and the base64url coding of the claim set. *)
Class TokenCodec := {
  hmac : string -> string -> string;
  encode_claims : claims -> string;
  decode_claims : string -> option claims;
  decode_encode : forall c, decode_claims (encode_claims c) = Some c;
  encode_base64url : forall c, base64url (encode_claims c) = true;
  hmac_base64url : forall key input, base64url (hmac key input) = true
}.

(** The three categories of section 4.4. *)
Inductive jwt_error := Malformed | InvalidSignature | Expired.

Inductive verify_result :=
| Verified (decoded : claims)
| Failed (e : jwt_error).

(** base64url of [{"alg":"HS256","typ":"JWT"}] *)
Definition jose_header : string := "eyJhbGciOiJIUzI1NiIsInR5cCI6IkpXVCJ9".

(** [Math.floor(Date.now() / 1000)] *)
Definition clock_timestamp (now_ms : Z) : Z := now_ms / 1000.

(** [expiresIn: '1h'], in seconds. *)
Definition ONE_HOUR : Z := 60 * 60.

Section Tokens.

Context {codec : TokenCodec}.

(** The claim set of a token issued at [now_ms] for [expires_in] seconds. *)
Definition issued_claims (account_id : Z) (name : string) (expires_in : Z)
           (now_ms : Z) : claims :=
  {| sub_id := account_id; sub_username := name;
     iat := clock_timestamp now_ms;
     exp := clock_timestamp now_ms + expires_in |}.

(** Modelled from the spec: [jwt.sign(payload, secret, { expiresIn })] of
    the [jsonwebtoken] package (TokenIssuer, section 4.3), not under src/:
    [iat] is now, [exp] is [iat] plus the lifetime, and the signature covers
    header and claims; three dot-separated segments (section 6). *)
Definition jwt_sign (account_id : Z) (name : string) (secret : string)
           (expires_in : Z) (now_ms : Z) : string :=
  let payload := encode_claims (issued_claims account_id name expires_in now_ms) in
  let input := jose_header ++ "." ++ payload in
  input ++ "." ++ hmac secret input.

(** Modelled from the spec: [jwt.decode(token)] of the [jsonwebtoken]
    package, not under src/: the claims a token carries (section 3), read
    without any verification. *)
Definition jwt_decode (token : string) : option claims :=
  match split "." token with
  | [_; payload; _] => decode_claims payload
  | _ => None
  end.

(** Modelled from the spec: [jwt.verify(token, secret)] of the
    [jsonwebtoken] package (TokenVerifier, section 4.4), not under src/:
    (a) parse the structure, (b) validate the signature, (c) compare the
    expiry with the clock, in this order.  A token is expired from the
    second [exp] on. *)
Definition jwt_verify (token : field) (secret : string) (now_ms : Z)
  : verify_result :=
  match token with
  | None => Failed Malformed
  | Some t =>
      match split "." t with
      | [header; payload; signature] =>
          if negb (String.eqb header jose_header) then Failed Malformed
          else match decode_claims payload with
               | None => Failed Malformed
               | Some decoded =>
                   if negb (String.eqb signature
                              (hmac secret (header ++ "." ++ payload)))
                   then Failed InvalidSignature
                   else if exp decoded <=? clock_timestamp now_ms
                        then Failed Expired
                        else Verified decoded
               end
      | _ => Failed Malformed
      end
  end.

End Tokens.

(** ** The handlers *)

(** The state of a [POST /api/register] handler at the end of its first
    segment: it has responded, or it is suspended on
    [await bcrypt.hash(password, 10)] holding [username] and [password]. *)
Inductive pending :=
| Responded (r : response)
| AwaitHash (name pw : string).

(** A request, with what the environment supplies while it is served. *)
Inductive request :=
| PostRegister (body_username body_password : field) (salt : string)
| PostLogin (body_username body_password : field) (now_ms : Z)
| GetProtegido (authorization : field) (now_ms : Z).

(** [token.split(' ')[1]] in [verifyToken] *)
Definition bearer_token (header : string) : field :=
  index (split " " header) 1.

(** The token as the specification words it (claim on header parsing): the
    substring after the first space of the header.  Not what the code
    computes; kept to compare with [bearer_token]. *)
Definition spec_token_after_first_space (header : string) : field :=
  after_first " " header.

Section Server.

Context {hasher : PasswordHasher} {codec : TokenCodec}.

(** [process.env.JWT_SECRET] *)
Variable env_JWT_SECRET : field.

Definition JWT_SECRET : string := or_else env_JWT_SECRET "clave_secreta_jwt".

(** [verifyToken]: [inl] is the response it sends itself, [inr] is
    [req.user] when it calls [next()]. *)
Definition verifyToken (authorization : field) (now_ms : Z)
  : response + claims :=
  if falsy authorization then inl (reply 403 "Token no proporcionado")
  else match authorization with
       | None => inl (reply 403 "Token no proporcionado")
       | Some token =>
           match jwt_verify (bearer_token token) JWT_SECRET now_ms with
           | Verified decoded => inr decoded
           | Failed _ => inl (reply 401 "Token inválido")
           end
       end.

(** [POST /api/register], up to the [await]. *)
Definition register_begin (body_username body_password : field) (us : users)
  : pending :=
  if falsy body_username || falsy body_password
  then Responded (reply 400 "Se requiere usuario y contraseña")
  else match body_username, body_password with
       | Some name, Some pw =>
           match find_user us name with
           | Some _ => Responded (reply 409 "El usuario ya existe")
           | None => AwaitHash name pw
           end
       | _, _ => Responded (reply 400 "Se requiere usuario y contraseña")
       end.

(** [POST /api/register], from the [await] on: [hashed] is [None] when
    [bcrypt.hash] rejected and the [catch] block runs. *)
Definition register_resume (name : string) (hashed : option string)
           (us : users) : response * users :=
  match hashed with
  | Some hashedPassword =>
      (reply 201 "Usuario registrado exitosamente",
       (us ++ [new_user us name hashedPassword])%list)
  | None => (reply 500 "Error interno del servidor", us)
  end.

(** [POST /api/register] served without interruption. *)
Definition register (body_username body_password : field) (salt : string)
           (us : users) : response * users :=
  match register_begin body_username body_password us with
  | Responded r => (r, us)
  | AwaitHash name pw => register_resume name (bcrypt_hash pw 10 salt) us
  end.

(** [POST /api/login] *)
Definition login (body_username body_password : field) (now_ms : Z)
           (us : users) : response :=
  if falsy body_username || falsy body_password
  then reply 400 "Se requiere usuario y contraseña"
  else match body_username, body_password with
       | Some name, Some pw =>
           match find_user us name with
           | None => reply 401 "Error en la autenticación"
           | Some account =>
               match bcrypt_compare pw (password account) with
               | None => reply 500 "Error interno del servidor"
               | Some isPasswordValid =>
                   if negb isPasswordValid
                   then reply 401 "Error en la autenticación"
                   else
                     let token := jwt_sign (id account) (username account)
                                           JWT_SECRET ONE_HOUR now_ms in
                     login_ok token
               end
           end
       | _, _ => reply 400 "Se requiere usuario y contraseña"
       end.

(** [GET /api/protegido]: [verifyToken], then the route handler. *)
Definition protegido (authorization : field) (now_ms : Z) : response :=
  match verifyToken authorization now_ms with
  | inl r => r
  | inr req_user => protegido_ok req_user
  end.

(** One request served to completion. *)
Definition serve (rq : request) (us : users) : response * users :=
  match rq with
  | PostRegister u p salt => register u p salt us
  | PostLogin u p now_ms => (login u p now_ms us, us)
  | GetProtegido h now_ms => (protegido h now_ms, us)
  end.

(** Requests served one after the other; the store they leave. *)
Fixpoint serve_all (rqs : list request) (us : users) : users :=
  match rqs with
  | [] => us
  | rq :: rest => serve_all rest (snd (serve rq us))
  end.

(** *** The ways a request ends *)

(** The four ways a register request ends. *)
Inductive register_outcome (u p : field) (salt : string) (us : users)
  : response * users -> Prop :=
| RegInvalid :
    falsy u || falsy p = true ->
    register_outcome u p salt us
      (reply 400 "Se requiere usuario y contraseña", us)
| RegDuplicate name account :
    u = Some name -> falsy u = false -> falsy p = false ->
    find_user us name = Some account ->
    register_outcome u p salt us (reply 409 "El usuario ya existe", us)
| RegInternal name pw :
    u = Some name -> p = Some pw -> name <> "" -> pw <> "" ->
    find_user us name = None -> bcrypt_hash pw 10 salt = None ->
    register_outcome u p salt us (reply 500 "Error interno del servidor", us)
| RegCreated name pw hashed :
    u = Some name -> p = Some pw -> name <> "" -> pw <> "" ->
    find_user us name = None -> bcrypt_hash pw 10 salt = Some hashed ->
    register_outcome u p salt us
      (reply 201 "Usuario registrado exitosamente",
       (us ++ [new_user us name hashed])%list).

(** The five ways a login request ends. *)
Inductive login_outcome (u p : field) (now_ms : Z) (us : users)
  : response -> Prop :=
| LoginInvalid :
    falsy u || falsy p = true ->
    login_outcome u p now_ms us (reply 400 "Se requiere usuario y contraseña")
| LoginUnknown name pw :
    u = Some name -> p = Some pw -> name <> "" -> pw <> "" ->
    find_user us name = None ->
    login_outcome u p now_ms us (reply 401 "Error en la autenticación")
| LoginWrongPassword name pw account :
    u = Some name -> p = Some pw -> name <> "" -> pw <> "" ->
    find_user us name = Some account ->
    bcrypt_compare pw (password account) = Some false ->
    login_outcome u p now_ms us (reply 401 "Error en la autenticación")
| LoginInternal name pw account :
    u = Some name -> p = Some pw -> name <> "" -> pw <> "" ->
    find_user us name = Some account ->
    bcrypt_compare pw (password account) = None ->
    login_outcome u p now_ms us (reply 500 "Error interno del servidor")
| LoginIssued name pw account :
    u = Some name -> p = Some pw -> name <> "" -> pw <> "" ->
    find_user us name = Some account ->
    bcrypt_compare pw (password account) = Some true ->
    login_outcome u p now_ms us
      (login_ok (jwt_sign (id account) (username account)
                          (JWT_SECRET) ONE_HOUR now_ms)).

(** *** The event loop with suspended register handlers *)

(** A turn of the event loop: a register request is dispatched and runs to
    its first [await] (or to its response), or the [k]-th suspended handler
    is resumed with the outcome of its hashing. *)
Inductive turn :=
| Arrives (body_username body_password : field)
| HashSettles (k : nat) (salt : string).

Record loop := {
  store : users;
  suspended : list (string * string);
  replies : list response
}.

Definition remove_nth {A} (k : nat) (l : list A) : list A :=
  (firstn k l ++ skipn (S k) l)%list.

Definition run_turn (s : loop) (t : turn) : loop :=
  match t with
  | Arrives u p =>
      match register_begin u p (store s) with
      | Responded r =>
          {| store := store s; suspended := suspended s;
             replies := (replies s ++ [r])%list |}
      | AwaitHash name pw =>
          {| store := store s; suspended := (suspended s ++ [(name, pw)])%list;
             replies := replies s |}
      end
  | HashSettles k salt =>
      match nth_error (suspended s) k with
      | Some (name, pw) =>
          let (r, us) := register_resume name (bcrypt_hash pw 10 salt) (store s) in
          {| store := us; suspended := remove_nth k (suspended s);
             replies := (replies s ++ [r])%list |}
      | None => s
      end
  end.

Definition run_turns (ts : list turn) (s : loop) : loop :=
  fold_left run_turn ts s.

Definition idle (us : users) : loop :=
  {| store := us; suspended := []; replies := [] |}.

End Server.

(** ** Observations on a run of the event loop *)

(** The usernames of the register requests dispatched during [ts]. *)
Definition arrivals (ts : list turn) : list string :=
  flat_map (fun t => match t with
                     | Arrives (Some name) _ => [name]
                     | _ => []
                     end) ts.

(** How many of the responses are 201. *)
Definition created (rs : list response) : nat :=
  List.length (filter (fun r => status r =? 201) rs).

(** The usernames stored or held by a suspended handler. *)
Definition names_in_play (s : loop) : list string :=
  (map username (store s) ++ map fst (suspended s))%list.

(** Ids are positions: the [i]-th record (from 0) has id [i + 1]. *)
Definition numbered (us : users) : Prop :=
  map id us = map (fun i => Z.of_nat i + 1) (seq 0 (List.length us)).

Section Observations.

Context {hasher : PasswordHasher} {codec : TokenCodec}.
Variable env_JWT_SECRET : field.

(** The responses to requests served one after the other, in order. *)
Fixpoint serve_log (rqs : list request) (us : users) : list response :=
  match rqs with
  | [] => []
  | rq :: rest =>
      fst (serve env_JWT_SECRET rq us)
      :: serve_log rest (snd (serve env_JWT_SECRET rq us))
  end.

(** What one turn of the event loop does. *)
Inductive turn_outcome (s : loop) : turn -> loop -> Prop :=
| TurnAnswered u p r :
    register_begin u p (store s) = Responded r ->
    status r = 400 \/ status r = 409 ->
    turn_outcome s (Arrives u p)
      {| store := store s; suspended := suspended s;
         replies := (replies s ++ [r])%list |}
| TurnSuspended u p name pw :
    u = Some name -> find_user (store s) name = None ->
    turn_outcome s (Arrives u p)
      {| store := store s;
         suspended := (suspended s ++ [(name, pw)])%list;
         replies := replies s |}
| TurnIdle k salt :
    nth_error (suspended s) k = None ->
    turn_outcome s (HashSettles k salt) s
| TurnCreated k salt name pw hashed :
    nth_error (suspended s) k = Some (name, pw) ->
    bcrypt_hash pw 10 salt = Some hashed ->
    turn_outcome s (HashSettles k salt)
      {| store := (store s ++ [new_user (store s) name hashed])%list;
         suspended := remove_nth k (suspended s);
         replies := (replies s
                     ++ [reply 201 "Usuario registrado exitosamente"])%list |}
| TurnFailed k salt name pw :
    nth_error (suspended s) k = Some (name, pw) ->
    bcrypt_hash pw 10 salt = None ->
    turn_outcome s (HashSettles k salt)
      {| store := store s;
         suspended := remove_nth k (suspended s);
         replies := (replies s
                     ++ [reply 500 "Error interno del servidor"])%list |}.

End Observations.

(** ** A small executable instance of the two libraries

    Used to run the handlers on concrete requests.  The hasher tags the
    plaintext and rejects when it is given no entropy; the MAC folds key and
    input into the base64url alphabet; the claim set is written in binary
    digits, fields separated by [_]. *)

Module Toy.

Definition toy_hash (data : string) (rounds : Z) (salt : string)
  : option string :=
  if String.eqb salt "" then None else Some ("$toy$" ++ data).

Definition toy_compare (data hashed : string) : option bool :=
  Some (String.eqb hashed ("$toy$" ++ data)).

Definition clean (c : ascii) : ascii := if is_base64url c then c else "_"%char.

Fixpoint map_chars (f : ascii -> ascii) (s : string) : string :=
  match s with
  | EmptyString => EmptyString
  | String c rest => String (f c) (map_chars f rest)
  end.

Definition toy_hmac (key input : string) : string :=
  map_chars clean (key ++ "/" ++ input).

Fixpoint enc_pos (p : positive) : string :=
  match p with
  | xH => ""
  | xO q => String "0" (enc_pos q)
  | xI q => String "1" (enc_pos q)
  end.

Fixpoint dec_pos (s : string) : option positive :=
  match s with
  | EmptyString => Some xH
  | String c rest =>
      match dec_pos rest with
      | Some q => if Ascii.eqb c "0" then Some (xO q)
                  else if Ascii.eqb c "1" then Some (xI q) else None
      | None => None
      end
  end.

Definition enc_Z (z : Z) : string :=
  match z with
  | Z0 => "z"
  | Zpos p => String "p" (enc_pos p)
  | Zneg p => String "n" (enc_pos p)
  end.

Definition dec_Z (s : string) : option Z :=
  match s with
  | EmptyString => None
  | String c rest =>
      if Ascii.eqb c "z" then
        match rest with EmptyString => Some Z0 | _ => None end
      else if Ascii.eqb c "p" then option_map Zpos (dec_pos rest)
      else if Ascii.eqb c "n" then option_map Zneg (dec_pos rest)
      else None
  end.

Definition bit (b : bool) : ascii := if b then "1"%char else "0"%char.

Definition unbit (c : ascii) : bool := Ascii.eqb c "1".

Fixpoint enc_name (s : string) : string :=
  match s with
  | EmptyString => EmptyString
  | String (Ascii b0 b1 b2 b3 b4 b5 b6 b7) rest =>
      String (bit b0) (String (bit b1) (String (bit b2) (String (bit b3)
      (String (bit b4) (String (bit b5) (String (bit b6) (String (bit b7)
      (enc_name rest))))))))
  end.

Fixpoint dec_name (s : string) : option string :=
  match s with
  | EmptyString => Some EmptyString
  | String c0 (String c1 (String c2 (String c3
      (String c4 (String c5 (String c6 (String c7 rest))))))) =>
      match dec_name rest with
      | Some name =>
          Some (String (Ascii (unbit c0) (unbit c1) (unbit c2) (unbit c3)
                              (unbit c4) (unbit c5) (unbit c6) (unbit c7))
                       name)
      | None => None
      end
  | _ => None
  end.

Definition toy_encode (c : claims) : string :=
  enc_Z (sub_id c) ++ "_" ++ enc_Z (iat c) ++ "_" ++ enc_Z (exp c)
        ++ "_" ++ enc_name (sub_username c).

Definition toy_decode (s : string) : option claims :=
  match split "_" s with
  | [a; b; c; d] =>
      match dec_Z a, dec_Z b, dec_Z c, dec_name d with
      | Some i, Some t0, Some t1, Some name =>
          Some {| sub_id := i; sub_username := name; iat := t0; exp := t1 |}
      | _, _, _, _ => None
      end
  | _ => None
  end.

End Toy.

(** * Properties *)

(** ** Strings *)

Lemma append_assoc (a b c : string) : (a ++ b) ++ c = a ++ (b ++ c).
Proof. induction a as [|x a IH]; simpl; [reflexivity | now rewrite IH]. Qed.

Lemma all_chars_app (p : ascii -> bool) (a b : string) :
  all_chars p (a ++ b) = all_chars p a && all_chars p b.
Proof.
  induction a as [|c a IH]; simpl; [reflexivity|].
  now rewrite IH, andb_assoc.
Qed.

Lemma all_chars_weaken (p q : ascii -> bool) (s : string) :
  (forall c, p c = true -> q c = true) ->
  all_chars p s = true -> all_chars q s = true.
Proof.
  intros Hpq. induction s as [|c s IH]; simpl; [reflexivity|].
  rewrite !andb_true_iff. intros [Hc Hs]. split; auto.
Qed.

Lemma base64url_lacks (sep : ascii) (s : string) :
  is_base64url sep = false -> base64url s = true -> lacks sep s = true.
Proof.
  intros Hsep. apply all_chars_weaken. intros c Hc.
  destruct (Ascii.eqb_spec c sep) as [->|]; [congruence | reflexivity].
Qed.

Lemma split_lacks (sep : ascii) (s : string) :
  lacks sep s = true -> split sep s = [s].
Proof.
  unfold lacks. induction s as [|c s IH]; simpl; [reflexivity|].
  rewrite andb_true_iff, negb_true_iff. intros [Hc Hs].
  now rewrite Hc, (IH Hs).
Qed.

Lemma split_app (sep : ascii) (a b : string) :
  lacks sep a = true -> split sep (a ++ String sep b) = a :: split sep b.
Proof.
  unfold lacks. induction a as [|c a IH]; simpl.
  - now rewrite Ascii.eqb_refl.
  - rewrite andb_true_iff, negb_true_iff. intros [Hc Ha].
    now rewrite Hc, (IH Ha).
Qed.

Lemma split_three (sep : ascii) (a b c : string) :
  lacks sep a = true -> lacks sep b = true -> lacks sep c = true ->
  split sep ((a ++ String sep b) ++ String sep c) = [a; b; c].
Proof.
  intros Ha Hb Hc. rewrite append_assoc.
  change (String sep b ++ String sep c) with (String sep (b ++ String sep c)).
  now rewrite (split_app _ _ _ Ha), (split_app _ _ _ Hb), (split_lacks _ _ Hc).
Qed.

(** ** The executable instance satisfies the library contracts *)

Lemma toy_compare_hash (data : string) (rounds : Z) (salt hashed : string) :
  Toy.toy_hash data rounds salt = Some hashed ->
  Toy.toy_compare data hashed = Some true.
Proof.
  unfold Toy.toy_hash, Toy.toy_compare.
  destruct (String.eqb salt ""); [discriminate|].
  intros [= <-]. now rewrite String.eqb_refl.
Qed.

Lemma dec_enc_pos (p : positive) : Toy.dec_pos (Toy.enc_pos p) = Some p.
Proof. induction p as [q IH|q IH|]; simpl; now rewrite ?IH. Qed.

Lemma dec_enc_Z (z : Z) : Toy.dec_Z (Toy.enc_Z z) = Some z.
Proof. destruct z; simpl; now rewrite ?dec_enc_pos. Qed.

Lemma unbit_bit (b : bool) : Toy.unbit (Toy.bit b) = b.
Proof. now destruct b. Qed.

Lemma dec_enc_name (s : string) : Toy.dec_name (Toy.enc_name s) = Some s.
Proof.
  induction s as [|[b0 b1 b2 b3 b4 b5 b6 b7] s IH]; [reflexivity|].
  cbn [Toy.enc_name Toy.dec_name]. now rewrite IH, !unbit_bit.
Qed.

Lemma bit_digit (b : bool) (p : ascii -> bool) :
  p "0"%char = true -> p "1"%char = true -> p (Toy.bit b) = true.
Proof. now destruct b. Qed.

Lemma enc_pos_digits (p : ascii -> bool) (q : positive) :
  p "0"%char = true -> p "1"%char = true ->
  all_chars p (Toy.enc_pos q) = true.
Proof.
  intros H0 H1. induction q as [q IH|q IH|]; simpl; now rewrite ?H0, ?H1, ?IH.
Qed.

Lemma enc_Z_digits (p : ascii -> bool) (z : Z) :
  p "0"%char = true -> p "1"%char = true ->
  p "z"%char = true -> p "p"%char = true -> p "n"%char = true ->
  all_chars p (Toy.enc_Z z) = true.
Proof.
  intros H0 H1 Hz Hp Hn.
  destruct z; simpl; now rewrite ?Hz, ?Hp, ?Hn, ?enc_pos_digits.
Qed.

Lemma enc_name_digits (p : ascii -> bool) (s : string) :
  p "0"%char = true -> p "1"%char = true ->
  all_chars p (Toy.enc_name s) = true.
Proof.
  intros H0 H1.
  induction s as [|[b0 b1 b2 b3 b4 b5 b6 b7] s IH]; [reflexivity|].
  cbn [Toy.enc_name all_chars]. now rewrite !bit_digit, IH.
Qed.

Lemma toy_decode_encode (c : claims) :
  Toy.toy_decode (Toy.toy_encode c) = Some c.
Proof.
  unfold Toy.toy_decode, Toy.toy_encode.
  repeat change ("_" ++ ?x) with (String "_" x).
  rewrite !split_app by (now apply enc_Z_digits).
  rewrite split_lacks by (now apply enc_name_digits).
  rewrite !dec_enc_Z, dec_enc_name. now destruct c.
Qed.

Lemma toy_encode_base64url (c : claims) : base64url (Toy.toy_encode c) = true.
Proof.
  unfold base64url, Toy.toy_encode. rewrite !all_chars_app.
  now rewrite !enc_Z_digits, enc_name_digits.
Qed.

Lemma map_clean_base64url (s : string) :
  base64url (Toy.map_chars Toy.clean s) = true.
Proof.
  unfold base64url. induction s as [|c s IH]; simpl; [reflexivity|].
  rewrite IH, andb_true_r. unfold Toy.clean.
  now destruct (is_base64url c) eqn:E.
Qed.

Definition toy_hasher : PasswordHasher :=
  {| bcrypt_hash := Toy.toy_hash;
     bcrypt_compare := Toy.toy_compare;
     compare_hash := toy_compare_hash |}.

Definition toy_codec : TokenCodec :=
  {| hmac := Toy.toy_hmac;
     encode_claims := Toy.toy_encode;
     decode_claims := Toy.toy_decode;
     decode_encode := toy_decode_encode;
     encode_base64url := toy_encode_base64url;
     hmac_base64url := fun key input => map_clean_base64url _ |}.


(** ** Tokens: what [jwt_sign] writes, [jwt_verify] reads back *)

Section TokenFacts.

Context {codec : TokenCodec}.

Lemma dot_not_base64url : is_base64url "." = false.
Proof. reflexivity. Qed.

Lemma space_not_base64url : is_base64url " " = false.
Proof. reflexivity. Qed.

Lemma jose_header_base64url : base64url jose_header = true.
Proof. reflexivity. Qed.

Lemma jwt_sign_segments (i : Z) (name secret : string) (ttl now_ms : Z) :
  split "." (jwt_sign i name secret ttl now_ms) =
  [jose_header;
   encode_claims (issued_claims i name ttl now_ms);
   hmac secret (jose_header ++ "." ++ encode_claims (issued_claims i name ttl now_ms))].
Proof.
  unfold jwt_sign. cbv zeta.
  apply (split_three "." jose_header
           (encode_claims (issued_claims i name ttl now_ms))
           (hmac secret (jose_header ++ "." ++
                         encode_claims (issued_claims i name ttl now_ms))));
    apply base64url_lacks;
    auto using dot_not_base64url, jose_header_base64url,
               encode_base64url, hmac_base64url.
Qed.

Lemma jwt_sign_lacks_space (i : Z) (name secret : string) (ttl now_ms : Z) :
  lacks " " (jwt_sign i name secret ttl now_ms) = true.
Proof.
  unfold jwt_sign, lacks. cbv zeta. rewrite !all_chars_app.
  pose proof (base64url_lacks " " _ space_not_base64url jose_header_base64url) as Hh.
  pose proof (base64url_lacks " " _ space_not_base64url
                (encode_base64url (issued_claims i name ttl now_ms))) as Hp.
  pose proof (base64url_lacks " " _ space_not_base64url
                (hmac_base64url secret
                   (jose_header ++ "." ++
                    encode_claims (issued_claims i name ttl now_ms)))) as Hs.
  unfold lacks in Hh, Hp, Hs. now rewrite Hh, Hp, Hs.
Qed.

Lemma jwt_decode_sign (i : Z) (name secret : string) (ttl now_ms : Z) :
  jwt_decode (jwt_sign i name secret ttl now_ms) =
  Some (issued_claims i name ttl now_ms).
Proof.
  unfold jwt_decode. rewrite jwt_sign_segments. apply decode_encode.
Qed.

Lemma jwt_verify_sign (i : Z) (name secret : string) (ttl now_ms later_ms : Z) :
  jwt_verify (Some (jwt_sign i name secret ttl now_ms)) secret later_ms =
  if clock_timestamp now_ms + ttl <=? clock_timestamp later_ms
  then Failed Expired
  else Verified (issued_claims i name ttl now_ms).
Proof.
  unfold jwt_verify. rewrite jwt_sign_segments.
  rewrite String.eqb_refl, decode_encode, String.eqb_refl. reflexivity.
Qed.

(** [jwt_verify] looks at the clock only to compare it with [exp]. *)
Lemma jwt_verify_later (token : field) (secret : string) (t1 t2 : Z) (c : claims) :
  jwt_verify token secret t1 = Verified c ->
  clock_timestamp t2 < exp c ->
  jwt_verify token secret t2 = Verified c.
Proof.
  unfold jwt_verify. destruct token as [t|]; [|discriminate].
  destruct (split "." t) as [|h [|p [|s [|]]]]; try discriminate.
  destruct (negb (h =? jose_header)%string); [discriminate|].
  destruct (decode_claims p) as [d|]; [|discriminate].
  destruct (negb (s =? hmac secret (h ++ "." ++ p))%string); [discriminate|].
  destruct (exp d <=? clock_timestamp t1); [discriminate|].
  intros [= ->] Hlt.
  destruct (Z.leb_spec (exp c) (clock_timestamp t2)); [lia | reflexivity].
Qed.

End TokenFacts.

(** ** The header *)

Lemma bearer_token_scheme (scheme token : string) :
  lacks " " scheme = true -> lacks " " token = true ->
  bearer_token (scheme ++ " " ++ token) = Some token.
Proof.
  intros Hs Ht. unfold bearer_token.
  change (" " ++ token) with (String " " token).
  now rewrite (split_app _ _ _ Hs), (split_lacks _ _ Ht).
Qed.

Lemma bearer_token_no_space (header : string) :
  lacks " " header = true -> bearer_token header = None.
Proof.
  intros H. unfold bearer_token. now rewrite (split_lacks _ _ H).
Qed.

(** The code reads the piece between the first and the second space. *)
Lemma bearer_token_piece (scheme token rest : string) :
  lacks " " scheme = true -> lacks " " token = true ->
  bearer_token (scheme ++ " " ++ token ++ " " ++ rest) = Some token.
Proof.
  intros Hs Ht. unfold bearer_token.
  repeat change (" " ++ ?x) with (String " " x).
  now rewrite (split_app _ _ _ Hs), (split_app _ _ _ Ht).
Qed.

(** ** The store under the handlers *)

Lemma find_user_app (us vs : users) (name : string) :
  find_user (us ++ vs)%list name =
  match find_user us name with
  | Some account => Some account
  | None => find_user vs name
  end.
Proof.
  unfold find_user. induction us as [|u us IH]; simpl; [reflexivity|].
  now destruct (username u =? name)%string.
Qed.

Lemma find_user_none (us : users) (name : string) :
  find_user us name = None -> ~ In name (map username us).
Proof.
  intros H Hin. apply in_map_iff in Hin as (u & Hu & Hin).
  apply (find_none _ _ H) in Hin. simpl in Hin.
  rewrite Hu, String.eqb_refl in Hin. discriminate.
Qed.

Lemma find_user_extends (us tail : users) (name : string) (account : user) :
  find_user us name = Some account ->
  find_user (us ++ tail)%list name = Some account.
Proof. intros H. now rewrite find_user_app, H. Qed.

Lemma falsy_some (s : string) : falsy (Some s) = false <-> s <> "".
Proof.
  simpl. destruct (String.eqb_spec s ""); split; congruence.
Qed.

Lemma valid_fields_some (name pw : string) :
  name <> "" -> pw <> "" -> falsy (Some name) || falsy (Some pw) = false.
Proof.
  intros Hn Hp. apply falsy_some in Hn, Hp. now rewrite Hn, Hp.
Qed.

Section ServerFacts.

Context {hasher : PasswordHasher} {codec : TokenCodec}.
Variable env : field.


Lemma register_begin_valid (name pw : string) (us : users) :
  name <> "" -> pw <> "" ->
  register_begin (Some name) (Some pw) us =
  match find_user us name with
  | Some _ => Responded (reply 409 "El usuario ya existe")
  | None => AwaitHash name pw
  end.
Proof.
  intros Hn Hp. unfold register_begin.
  apply falsy_some in Hn, Hp. now rewrite Hn, Hp.
Qed.

Lemma register_begin_invalid (u p : field) (us : users) :
  falsy u || falsy p = true ->
  register_begin u p us = Responded (reply 400 "Se requiere usuario y contraseña").
Proof. intros H. unfold register_begin. now rewrite H. Qed.

Lemma register_cases (u p : field) (salt : string) (us : users) :
  register_outcome u p salt us (register u p salt us).
Proof.
  unfold register.
  destruct (falsy u || falsy p) eqn:Hf.
  - rewrite (register_begin_invalid _ _ _ Hf). now constructor.
  - apply orb_false_iff in Hf as [Hu Hp].
    destruct u as [name|]; [|discriminate]. destruct p as [pw|]; [|discriminate].
    pose proof (proj1 (falsy_some _) Hu) as Hn.
    pose proof (proj1 (falsy_some _) Hp) as Hw.
    rewrite (register_begin_valid _ _ us Hn Hw).
    destruct (find_user us name) as [account|] eqn:Hfind.
    + now apply (RegDuplicate _ _ _ _ name account).
    + destruct (bcrypt_hash pw 10 salt) as [hashed|] eqn:Hh; simpl.
      * now apply (RegCreated _ _ _ _ name pw hashed).
      * now apply (RegInternal _ _ _ _ name pw).
Qed.

Lemma register_extends (u p : field) (salt : string) (us : users) :
  exists tail, snd (register u p salt us) = (us ++ tail)%list.
Proof.
  destruct (register_cases u p salt us); simpl;
    try (exists []; now rewrite app_nil_r).
  now eexists.
Qed.

Lemma serve_extends (rq : request) (us : users) :
  exists tail, snd (serve env rq us) = (us ++ tail)%list.
Proof.
  destruct rq; simpl; try (exists []; now rewrite app_nil_r).
  apply register_extends.
Qed.

Lemma serve_all_extends (rqs : list request) (us : users) :
  exists tail, serve_all env rqs us = (us ++ tail)%list.
Proof.
  revert us. induction rqs as [|rq rqs IH]; intros us; simpl.
  - exists []. now rewrite app_nil_r.
  - destruct (serve_extends rq us) as [t1 H1].
    destruct (IH (snd (serve env rq us))) as [t2 H2].
    exists (t1 ++ t2)%list. now rewrite H2, H1, app_assoc.
Qed.

Lemma serve_all_app (rqs1 rqs2 : list request) (us : users) :
  serve_all env (rqs1 ++ rqs2) us = serve_all env rqs2 (serve_all env rqs1 us).
Proof.
  revert us. induction rqs1 as [|rq rqs1 IH]; intros us; simpl; auto.
Qed.


(** *** Login *)

Lemma login_cases (u p : field) (now_ms : Z) (us : users) :
  login_outcome env u p now_ms us (login env u p now_ms us).
Proof.
  unfold login.
  destruct (falsy u || falsy p) eqn:Hf; [now constructor|].
  apply orb_false_iff in Hf as [Hu Hp].
  destruct u as [name|]; [|discriminate]. destruct p as [pw|]; [|discriminate].
  pose proof (proj1 (falsy_some _) Hu) as Hn.
  pose proof (proj1 (falsy_some _) Hp) as Hw.
  destruct (find_user us name) as [account|] eqn:Hfind.
  - destruct (bcrypt_compare pw (password account)) as [[|]|] eqn:Hc; simpl.
    + now apply (LoginIssued env _ _ _ _ name pw account).
    + now apply (LoginWrongPassword env _ _ _ _ name pw account).
    + now apply (LoginInternal env _ _ _ _ name pw account).
  - now apply (LoginUnknown env _ _ _ _ name pw).
Qed.

(** *** The protected route *)

Lemma protegido_missing (h : field) (now_ms : Z) :
  falsy h = true -> protegido env h now_ms = reply 403 "Token no proporcionado".
Proof. intros H. unfold protegido, verifyToken. now rewrite H. Qed.

Lemma protegido_present (h : string) (now_ms : Z) :
  h <> "" ->
  protegido env (Some h) now_ms =
  match jwt_verify (bearer_token h) (JWT_SECRET env) now_ms with
  | Verified decoded => protegido_ok decoded
  | Failed _ => reply 401 "Token inválido"
  end.
Proof.
  intros H. apply falsy_some in H. unfold protegido, verifyToken.
  rewrite H. now destruct jwt_verify.
Qed.

Lemma scheme_header_nonempty (scheme token : string) :
  scheme ++ " " ++ token <> "".
Proof. now destruct scheme. Qed.

Lemma protegido_scheme (scheme token : string) (now_ms : Z) :
  lacks " " scheme = true -> lacks " " token = true ->
  protegido env (Some (scheme ++ " " ++ token)) now_ms =
  match jwt_verify (Some token) (JWT_SECRET env) now_ms with
  | Verified decoded => protegido_ok decoded
  | Failed _ => reply 401 "Token inválido"
  end.
Proof.
  intros Hs Ht.
  rewrite protegido_present by apply scheme_header_nonempty.
  now rewrite bearer_token_scheme.
Qed.

(** *** Register, then log in, then authorize *)

Lemma seconds_le (q later_ms : Z) : q <= later_ms / 1000 <-> q * 1000 <= later_ms.
Proof.
  split; intros H.
  - pose proof (Z.mul_div_le later_ms 1000). lia.
  - apply Z.div_le_lower_bound; lia.
Qed.

(** What presenting a token that [jwt.sign] issued for one hour gives, with
    the clock read in milliseconds. *)
Lemma issued_token_presented (i : Z) (name : string) (now_ms later_ms : Z) :
  let token := jwt_sign i name (JWT_SECRET env) ONE_HOUR now_ms in
  let decoded := issued_claims i name ONE_HOUR now_ms in
  ((now_ms / 1000 + 3600) * 1000 <= later_ms ->
   jwt_verify (Some token) (JWT_SECRET env) later_ms = Failed Expired /\
   protegido env (Some ("Bearer " ++ token)) later_ms
     = reply 401 "Token inválido") /\
  (later_ms < (now_ms / 1000 + 3600) * 1000 ->
   jwt_verify (Some token) (JWT_SECRET env) later_ms = Verified decoded /\
   protegido env (Some ("Bearer " ++ token)) later_ms = protegido_ok decoded).
Proof.
  intros token decoded.
  change ("Bearer " ++ token) with ("Bearer" ++ " " ++ token).
  rewrite protegido_scheme by (reflexivity || apply jwt_sign_lacks_space).
  unfold token. rewrite jwt_verify_sign.
  destruct (Z.leb_spec (clock_timestamp now_ms + ONE_HOUR)
                       (clock_timestamp later_ms)) as [Hle|Hlt];
    unfold clock_timestamp, ONE_HOUR in *.
  - apply seconds_le in Hle. split; intros H; [now split | lia].
  - split; intros H; [apply seconds_le in H; lia | now split].
Qed.

(** Round trip, one request at a time: when Register answers 201 for a
    username and a password, a later Login with exactly these credentials,
    after any requests served one after the other in between, answers 200
    and its body carries a token; the protected route reached with
    [Bearer <token>] less than 3600 seconds after the second of issue
    answers 200 and its body carries claims whose id is the id Register
    assigned and whose username is the one registered. *)
Theorem sequential_round_trip
  (us : users) (name pw salt : string) (rqs : list request)
  (now_ms later_ms : Z) :
  status (fst (register (Some name) (Some pw) salt us)) = 201 ->
  later_ms < (now_ms / 1000 + 3600) * 1000 ->
  exists hashed token decoded,
    snd (register (Some name) (Some pw) salt us)
      = (us ++ [{| id := Z.of_nat (List.length us) + 1;
                   username := name;
                   password := hashed |}])%list /\
    status (login env (Some name) (Some pw) now_ms
              (serve_all env rqs
                 (snd (register (Some name) (Some pw) salt us)))) = 200 /\
    member "token"
      (body (login env (Some name) (Some pw) now_ms
               (serve_all env rqs
                  (snd (register (Some name) (Some pw) salt us)))))
      = Some (JStr token) /\
    status (protegido env (Some ("Bearer " ++ token)) later_ms) = 200 /\
    member "user" (body (protegido env (Some ("Bearer " ++ token)) later_ms))
      = Some (JObj [("id", JNum (sub_id decoded));
                    ("username", JStr (sub_username decoded));
                    ("iat", JNum (iat decoded));
                    ("exp", JNum (exp decoded))]) /\
    sub_id decoded = Z.of_nat (List.length us) + 1 /\
    sub_username decoded = name.
Proof.
  destruct (register_cases (Some name) (Some pw) salt us)
    as [ | | | n w hashed Hu Hp Hn Hw Hfree Hhash]; try discriminate.
  injection Hu as <-. injection Hp as <-. intros _ Hlive. simpl snd.
  set (account := new_user us name hashed).
  assert (Hfound : find_user (serve_all env rqs (us ++ [account])%list) name
                   = Some account).
  { destruct (serve_all_extends rqs (us ++ [account])%list) as [tail ->].
    apply find_user_extends. rewrite find_user_app, Hfree.
    unfold find_user. simpl. now rewrite String.eqb_refl. }
  assert (Hpass : bcrypt_compare pw (password account) = Some true)
    by exact (compare_hash _ _ _ _ Hhash).
  assert (Hlogin : login env (Some name) (Some pw) now_ms
                     (serve_all env rqs (us ++ [account])%list)
                   = login_ok (jwt_sign (id account) name (JWT_SECRET env)
                                        ONE_HOUR now_ms)).
  { unfold login. rewrite (valid_fields_some _ _ Hn Hw), Hfound, Hpass.
    reflexivity. }
  destruct (issued_token_presented (id account) name now_ms later_ms)
    as [_ Hgood]. destruct (Hgood Hlive) as [_ Hroute].
  exists hashed,
    (jwt_sign (id account) name (JWT_SECRET env) ONE_HOUR now_ms),
    (issued_claims (id account) name ONE_HOUR now_ms).
  rewrite Hlogin, Hroute. now repeat split.
Qed.

(** *** Failed logins *)

(** C2.  Enumeration resistance: in every store, a Login naming a username
    that is not in the store and a Login naming a stored username with a
    password that does not match are answered with the same response, status
    401 and the one generic body. *)
Theorem login_failures_indistinguishable
  (us : users) (ghost pw1 name pw2 : string) (account : user) (t1 t2 : Z) :
  ghost <> "" -> pw1 <> "" -> name <> "" -> pw2 <> "" ->
  find_user us ghost = None ->
  find_user us name = Some account ->
  bcrypt_compare pw2 (password account) = Some false ->
  login env (Some ghost) (Some pw1) t1 us
    = login env (Some name) (Some pw2) t2 us /\
  login env (Some ghost) (Some pw1) t1 us
    = reply 401 "Error en la autenticación".
Proof.
  intros Hg H1 Hn H2 Hnone Hsome Hbad.
  apply falsy_some in Hg, H1, Hn, H2. unfold login.
  now rewrite Hg, H1, Hn, H2, Hnone, Hsome, Hbad.
Qed.

(** *** Registering a username twice *)

Lemma find_user_registered (us tail : users) (name hashed : string) :
  find_user us name = None ->
  find_user ((us ++ [new_user us name hashed]) ++ tail)%list name
  = Some (new_user us name hashed).
Proof.
  intros Hfree. apply find_user_extends. rewrite find_user_app, Hfree.
  unfold find_user. simpl. now rewrite String.eqb_refl.
Qed.

(** C3.  For a valid username and password with the username not in the
    store, Register succeeds (201, and the account is appended); from then
    on, whatever requests are served in between, every Register with the same
    username fails and leaves the store as it is, with status 409 whatever
    password is supplied. *)
Theorem register_once_then_duplicate
  (us : users) (name pw salt hashed : string) (rqs : list request)
  (p' : field) (salt' : string) :
  name <> "" -> pw <> "" ->
  find_user us name = None ->
  bcrypt_hash pw 10 salt = Some hashed ->
  let created := (us ++ [new_user us name hashed])%list in
  let later := serve_all env rqs created in
  register (Some name) (Some pw) salt us
    = (reply 201 "Usuario registrado exitosamente", created) /\
  snd (register (Some name) p' salt' later) = later /\
  status (fst (register (Some name) p' salt' later)) <> 201 /\
  (falsy p' = false ->
   register (Some name) p' salt' later
     = (reply 409 "El usuario ya existe", later)).
Proof.
  intros Hn Hw Hfree Hhash created later. split.
  - unfold register. rewrite (register_begin_valid _ _ _ Hn Hw), Hfree, Hhash.
    reflexivity.
  - assert (Hfound : find_user later name = Some (new_user us name hashed)).
    { subst later created.
      destruct (serve_all_extends rqs (us ++ [new_user us name hashed])%list)
        as [tail ->].
      now apply find_user_registered. }
    destruct (register_cases (Some name) p' salt' later)
      as [Hf | n a Hu Hfu Hfp Hdup | n w Hu Hp _ _ Hnone _ | n w h Hu Hp _ _ Hnone _];
      try (injection Hu as <-; congruence).
    + simpl. repeat split; try discriminate.
      intros Hp. apply falsy_some in Hn. rewrite Hn, Hp in Hf. discriminate.
    + simpl. repeat split; try discriminate.
Qed.

(** *** The store invariant *)

Lemma NoDup_snoc {A} (l : list A) (x : A) :
  NoDup l -> ~ In x l -> NoDup (l ++ [x]).
Proof.
  intros Hl Hx. apply NoDup_app; auto.
  - constructor; [intros [] | constructor].
  - intros a Ha [<-|[]]. contradiction.
Qed.

Lemma store_ok_push (us : users) (name hashed : string) :
  store_ok us -> find_user us name = None ->
  store_ok (us ++ [new_user us name hashed])%list.
Proof.
  intros (Hid & Hname & Hle) Hfree. unfold store_ok.
  rewrite !map_app, length_app. simpl. repeat split.
  - apply NoDup_snoc; [assumption|].
    intros Hin. apply in_map_iff in Hin as (u & Hu & Hin).
    rewrite Forall_forall in Hle. apply Hle in Hin. lia.
  - apply NoDup_snoc; [assumption | now apply find_user_none].
  - apply Forall_app. split.
    + eapply Forall_impl; [|exact Hle]. simpl. intros; lia.
    + constructor; [simpl; lia | constructor].
Qed.

Lemma store_ok_serve (rq : request) (us : users) :
  store_ok us -> store_ok (snd (serve env rq us)).
Proof.
  intros Hok. destruct rq as [u p salt | |]; simpl; try assumption.
  destruct (register_cases u p salt us); simpl; try assumption.
  now apply store_ok_push.
Qed.

Lemma store_ok_serve_all (rqs : list request) (us : users) :
  store_ok us -> store_ok (serve_all env rqs us).
Proof.
  revert us. induction rqs as [|rq rqs IH]; intros us Hok; simpl; [assumption|].
  now apply IH, store_ok_serve.
Qed.

(** C6.  Store invariant: after every sequence of Register, Login and
    Authorize requests served one after the other from the empty store, the
    accounts have pairwise distinct ids and pairwise distinct usernames; and
    whatever is served next, the accounts already stored stay as they are, in
    place, at the front of the store. *)
Theorem store_invariant (rqs more : list request) :
  NoDup (map id (serve_all env rqs [])) /\
  NoDup (map username (serve_all env rqs [])) /\
  exists added,
    serve_all env (rqs ++ more) [] = (serve_all env rqs [] ++ added)%list.
Proof.
  assert (Hok : store_ok (serve_all env rqs [])).
  { apply store_ok_serve_all. repeat split; constructor. }
  destruct Hok as (Hid & Hname & _). repeat split; try assumption.
  rewrite serve_all_app. apply serve_all_extends.
Qed.

(** *** Failures *)

(** C7.  Atomicity on failure: a Register that does not answer 201 leaves
    the store exactly as it was; a Login that does not answer 200 carries no
    token; and when the hashing step of a Register fails, the answer is the
    internal error 500 (and the store is as it was). *)
Theorem failure_leaves_no_partial_state
  (u p : field) (salt : string) (now_ms : Z) (us : users) :
  (status (fst (register u p salt us)) <> 201 ->
   snd (register u p salt us) = us) /\
  (status (login env u p now_ms us) <> 200 ->
   member "token" (body (login env u p now_ms us)) = None) /\
  (forall name pw,
      register_begin u p us = AwaitHash name pw ->
      bcrypt_hash pw 10 salt = None ->
      register u p salt us = (reply 500 "Error interno del servidor", us)).
Proof.
  repeat split.
  - destruct (register_cases u p salt us); simpl; congruence.
  - destruct (login_cases u p now_ms us); simpl; congruence.
  - intros name pw Hbegin Hhash. unfold register. now rewrite Hbegin, Hhash.
Qed.

(** *** Token lifetime *)

(** C4.  Every token issued by Login (the [token] member of a 200 body)
    carries [iat] = the second of issue, [floor(now / 1000)], and [exp] =
    [iat] + 3600; presented at or after the instant [exp] it fails as
    expired and the protected route answers 401 with the generic message;
    presented at any instant before [exp], the millisecond before it
    included, it is accepted and the route answers 200 with these claims.
    On the wall clock: accepted up to 3599 seconds after issue, refused from
    3600 seconds after issue on. *)
Theorem token_lifetime_one_hour (u p : field) (now_ms : Z) (us : users) :
  status (login env u p now_ms us) = 200 ->
  exists token decoded,
    member "token" (body (login env u p now_ms us)) = Some (JStr token) /\
    jwt_decode token = Some decoded /\
    iat decoded = now_ms / 1000 /\
    exp decoded = now_ms / 1000 + 3600 /\
    (forall later_ms,
        exp decoded * 1000 <= later_ms ->
        jwt_verify (Some token) (JWT_SECRET env) later_ms = Failed Expired /\
        status (protegido env (Some ("Bearer " ++ token)) later_ms) = 401 /\
        body (protegido env (Some ("Bearer " ++ token)) later_ms)
          = JObj [("message", JStr "Token inválido")]) /\
    (forall later_ms,
        later_ms < exp decoded * 1000 ->
        jwt_verify (Some token) (JWT_SECRET env) later_ms = Verified decoded /\
        status (protegido env (Some ("Bearer " ++ token)) later_ms) = 200 /\
        member "user"
          (body (protegido env (Some ("Bearer " ++ token)) later_ms))
          = Some (JObj [("id", JNum (sub_id decoded));
                        ("username", JStr (sub_username decoded));
                        ("iat", JNum (now_ms / 1000));
                        ("exp", JNum (now_ms / 1000 + 3600))])) /\
    (forall later_ms,
        now_ms <= later_ms <= now_ms + 3599000 ->
        status (protegido env (Some ("Bearer " ++ token)) later_ms) = 200) /\
    (forall later_ms,
        now_ms + 3600000 <= later_ms ->
        status (protegido env (Some ("Bearer " ++ token)) later_ms) = 401).
Proof.
  destruct (login_cases u p now_ms us)
    as [ | | | | name pw account _ _ _ _ _ _]; try discriminate.
  intros _.
  pose proof (issued_token_presented (id account) (username account) now_ms)
    as Hroute.
  pose proof (Z.div_mod now_ms 1000) as Hdiv.
  pose proof (Z.mod_pos_bound now_ms 1000) as Hmod.
  exists (jwt_sign (id account) (username account) (JWT_SECRET env)
                   ONE_HOUR now_ms),
         (issued_claims (id account) (username account) ONE_HOUR now_ms).
  split; [reflexivity|]. split; [apply jwt_decode_sign|].
  split; [reflexivity|]. split; [reflexivity|].
  change (exp (issued_claims (id account) (username account) ONE_HOUR now_ms))
    with (now_ms / 1000 + 3600).
  split; [|split; [|split]]; intros later_ms Hlater;
    destruct (Hroute later_ms) as [Hlate Hearly].
  - destruct (Hlate Hlater) as [Hv Hr]. rewrite Hr. now repeat split.
  - destruct (Hearly Hlater) as [Hv Hr]. rewrite Hr. now repeat split.
  - destruct Hearly as [_ Hr]; [lia|]. now rewrite Hr.
  - destruct Hlate as [_ Hr]; [lia|]. now rewrite Hr.
Qed.

(** *** What the middleware answers *)

(** C5.  Authorize failure mapping: with the Authorization header absent
    (or empty) the answer is 403; with a header present, whatever makes
    verification fail (malformed, invalid signature, expired) the answer is
    the same 401 with the one generic message; when verification succeeds
    the answer is 200 with the verified claims, and a response carries
    claims only in that case. *)
Theorem authorize_failure_mapping (h : field) (now_ms : Z) :
  (falsy h = true ->
   protegido env h now_ms = reply 403 "Token no proporcionado") /\
  (forall header e,
      h = Some header -> header <> "" ->
      jwt_verify (bearer_token header) (JWT_SECRET env) now_ms = Failed e ->
      protegido env h now_ms = reply 401 "Token inválido") /\
  (forall header decoded,
      h = Some header -> header <> "" ->
      jwt_verify (bearer_token header) (JWT_SECRET env) now_ms
        = Verified decoded ->
      protegido env h now_ms = protegido_ok decoded) /\
  (forall j,
      member "user" (body (protegido env h now_ms)) = Some j ->
      exists header decoded,
        h = Some header /\
        jwt_verify (bearer_token header) (JWT_SECRET env) now_ms
          = Verified decoded /\
        j = claims_json decoded /\
        status (protegido env h now_ms) = 200).
Proof.
  split; [apply protegido_missing|]. split; [|split].
  - intros header e -> Hne Hfail. now rewrite protegido_present, Hfail.
  - intros header decoded -> Hne Hgood. now rewrite protegido_present, Hgood.
  - intros j. destruct (falsy h) eqn:Hf.
    + now rewrite (protegido_missing _ _ Hf).
    + destruct h as [header|]; [|discriminate].
      rewrite protegido_present by now apply falsy_some.
      destruct jwt_verify as [decoded|e] eqn:Hv; [|discriminate].
      intros [= <-]. now exists header, decoded.
Qed.

(** *** Verification is repeatable *)

Lemma verifyToken_later (h : field) (t1 t2 : Z) (decoded : claims) :
  verifyToken env h t1 = inr decoded ->
  clock_timestamp t2 < exp decoded ->
  verifyToken env h t2 = inr decoded.
Proof.
  unfold verifyToken. destruct (falsy h); [discriminate|].
  destruct h as [header|]; [|discriminate].
  destruct (jwt_verify (bearer_token header) (JWT_SECRET env) t1)
    as [d|] eqn:Hv; [|discriminate].
  intros [= ->] Hlt. now rewrite (jwt_verify_later _ _ _ _ _ Hv Hlt).
Qed.

(** C8.  Idempotence of verification: when the protected route accepts a
    header, reaching it again with the same header at any time before the
    token expires, whatever was served in between, returns the same claims;
    neither call changes the store. *)
Theorem authorize_idempotent
  (h : field) (t1 t2 : Z) (decoded : claims) (us : users)
  (rqs : list request) :
  verifyToken env h t1 = inr decoded ->
  clock_timestamp t2 < exp decoded ->
  serve env (GetProtegido h t1) us = (protegido_ok decoded, us) /\
  serve env (GetProtegido h t2) (serve_all env rqs us)
    = (protegido_ok decoded, serve_all env rqs us).
Proof.
  intros H1 Hlt. pose proof (verifyToken_later _ _ _ _ H1 Hlt) as H2.
  simpl. unfold protegido. now rewrite H1, H2.
Qed.

(** *** The header *)

(** C10 (as amended).  The middleware takes as the token the piece of the
    Authorization header between its first and its second space (all that
    follows the first space when there is no second one) and never looks at
    the scheme word: a token without spaces that verifies is accepted behind
    any scheme word; a non-empty header without a space leaves the token
    undefined and is answered 401; the empty header is answered 403. *)
Theorem bearer_header_parsing
  (scheme token rest header : string) (decoded : claims) (now_ms : Z) :
  (lacks " " scheme = true -> lacks " " token = true ->
   bearer_token (scheme ++ " " ++ token) = Some token /\
   bearer_token (scheme ++ " " ++ token ++ " " ++ rest) = Some token /\
   (jwt_verify (Some token) (JWT_SECRET env) now_ms = Verified decoded ->
    protegido env (Some (scheme ++ " " ++ token)) now_ms
      = protegido_ok decoded)) /\
  (header <> "" -> lacks " " header = true ->
   bearer_token header = None /\
   protegido env (Some header) now_ms = reply 401 "Token inválido") /\
  protegido env (Some "") now_ms = reply 403 "Token no proporcionado".
Proof.
  split; [|split; [|reflexivity]].
  - intros Hs Ht. split; [now apply bearer_token_scheme|].
    split; [now apply bearer_token_piece|].
    intros Hv. now rewrite protegido_scheme, Hv.
  - intros Hne Hl. split; [now apply bearer_token_no_space|].
    now rewrite protegido_present, bearer_token_no_space.
Qed.

(** *** Two register requests in flight *)

(** Served without interruption, the two segments are the handler. *)
Lemma register_as_turns (u p : field) (salt : string) (us : users) :
  run_turns [Arrives u p; HashSettles 0 salt] (idle us) =
  {| store := snd (register u p salt us);
     suspended := [];
     replies := [fst (register u p salt us)] |}.
Proof.
  unfold run_turns, register. simpl.
  destruct (register_begin u p us) as [r|name pw]; simpl; [reflexivity|].
  now destruct (register_resume name (bcrypt_hash pw 10 salt) us).
Qed.

(** C9 (what the code does).  Two Register requests for the same unused
    username that both arrive before either hashing settles both pass the
    duplicate check, both answer 201, and leave two accounts with the same
    username in the store. *)
Theorem concurrent_register_race
  (us : users) (name pw1 pw2 salt1 salt2 h1 h2 : string) :
  name <> "" -> pw1 <> "" -> pw2 <> "" ->
  find_user us name = None ->
  bcrypt_hash pw1 10 salt1 = Some h1 ->
  bcrypt_hash pw2 10 salt2 = Some h2 ->
  let first := new_user us name h1 in
  let second := new_user (us ++ [first])%list name h2 in
  let final :=
    run_turns [Arrives (Some name) (Some pw1); Arrives (Some name) (Some pw2);
               HashSettles 0 salt1; HashSettles 0 salt2] (idle us) in
  final = {| store := ((us ++ [first]) ++ [second])%list;
             suspended := [];
             replies := [reply 201 "Usuario registrado exitosamente";
                         reply 201 "Usuario registrado exitosamente"] |} /\
  ~ NoDup (map username (store final)).
Proof.
  intros Hn H1 H2 Hfree Hh1 Hh2 first second final.
  assert (Hfinal : final =
            {| store := ((us ++ [first]) ++ [second])%list;
               suspended := [];
               replies := [reply 201 "Usuario registrado exitosamente";
                           reply 201 "Usuario registrado exitosamente"] |}).
  { subst final. unfold run_turns. simpl.
    rewrite (register_begin_valid _ _ _ Hn H1), Hfree. simpl.
    rewrite (register_begin_valid _ _ _ Hn H2), Hfree. simpl.
    rewrite Hh1. simpl. rewrite Hh2. reflexivity. }
  split; [exact Hfinal|]. rewrite Hfinal. simpl.
  rewrite <- app_assoc, map_app. simpl. intros Hnd.
  apply NoDup_app_remove_l in Hnd. inversion Hnd as [|x l Hx _].
  apply Hx. now left.
Qed.

(** *** The round trip after overlapping registrations *)

Lemma overlapping_registrations_run
  (us : users) (name pw1 pw2 salt1 salt2 h1 h2 : string) :
  name <> "" -> pw1 <> "" -> pw2 <> "" ->
  find_user us name = None ->
  bcrypt_hash pw1 10 salt1 = Some h1 ->
  bcrypt_hash pw2 10 salt2 = Some h2 ->
  run_turns [Arrives (Some name) (Some pw1); Arrives (Some name) (Some pw2);
             HashSettles 0 salt1; HashSettles 0 salt2] (idle us)
  = {| store := ((us ++ [new_user us name h1])
                 ++ [new_user (us ++ [new_user us name h1]) name h2])%list;
       suspended := [];
       replies := [reply 201 "Usuario registrado exitosamente";
                   reply 201 "Usuario registrado exitosamente"] |}.
Proof.
  intros Hn H1 H2 Hfree Hh1 Hh2. unfold run_turns. simpl.
  rewrite (register_begin_valid _ _ _ Hn H1), Hfree. simpl.
  rewrite (register_begin_valid _ _ _ Hn H2), Hfree. simpl.
  rewrite Hh1. simpl. rewrite Hh2. reflexivity.
Qed.

(** C1 (what the code does).  When two Register requests for the same
    unused username overlap, both are answered 201; a later Login with
    exactly the credentials of the second one is answered 401 and carries
    no token, because [find] returns the record of the first. *)
Theorem round_trip_lost_after_overlap
  (us : users) (name pw1 pw2 salt1 salt2 h1 h2 : string) (now_ms : Z) :
  name <> "" -> pw1 <> "" -> pw2 <> "" ->
  find_user us name = None ->
  bcrypt_hash pw1 10 salt1 = Some h1 ->
  bcrypt_hash pw2 10 salt2 = Some h2 ->
  bcrypt_compare pw2 h1 = Some false ->
  let final :=
    run_turns [Arrives (Some name) (Some pw1); Arrives (Some name) (Some pw2);
               HashSettles 0 salt1; HashSettles 0 salt2] (idle us) in
  map status (replies final) = [201; 201] /\
  status (login env (Some name) (Some pw2) now_ms (store final)) = 401 /\
  member "token"
    (body (login env (Some name) (Some pw2) now_ms (store final))) = None.
Proof.
  intros Hn H1 H2 Hfree Hh1 Hh2 Hbad final. subst final.
  rewrite (overlapping_registrations_run us name pw1 pw2 salt1 salt2 h1 h2)
    by assumption.
  simpl store. simpl replies.
  assert (Hlogin :
    login env (Some name) (Some pw2) now_ms
      ((us ++ [new_user us name h1])
       ++ [new_user (us ++ [new_user us name h1]) name h2])%list
    = reply 401 "Error en la autenticación").
  { unfold login.
    rewrite (valid_fields_some _ _ Hn H2), (find_user_registered _ _ _ _ Hfree).
    simpl password. now rewrite Hbad. }
  rewrite Hlogin. now repeat split.
Qed.

End ServerFacts.

(** * Further properties of the handlers *)

(** ** [split] and [join] *)

Lemma split_nonempty (sep : ascii) (s : string) :
  exists piece pieces, split sep s = piece :: pieces.
Proof.
  induction s as [|c s (piece & pieces & IH)]; simpl; [now eauto|].
  destruct (Ascii.eqb c sep); [now eauto|]. rewrite IH. now eauto.
Qed.

Lemma join_cons_char (sep c : ascii) (piece : string) (pieces : list string) :
  join sep (String c piece :: pieces) = String c (join sep (piece :: pieces)).
Proof. now destruct pieces. Qed.

Lemma split_pieces_lack (sep : ascii) (s : string) :
  Forall (fun piece => lacks sep piece = true) (split sep s).
Proof.
  induction s as [|c s IH]; simpl; [now repeat constructor|].
  destruct (Ascii.eqb c sep) eqn:Hc; [now constructor|].
  destruct (split_nonempty sep s) as (piece & pieces & Hs). rewrite Hs in *.
  inversion IH as [|? ? Hp Hps]; subst. constructor; [|assumption].
  unfold lacks in *. simpl. now rewrite Hc, Hp.
Qed.

(** Splitting a string and joining the pieces with the separator gives the
    string back, and no piece contains the separator. *)
Theorem join_split (sep : ascii) (s : string) :
  join sep (split sep s) = s /\
  Forall (fun piece => lacks sep piece = true) (split sep s).
Proof.
  split; [|apply split_pieces_lack].
  induction s as [|c s IH]; [reflexivity|]. simpl.
  destruct (split_nonempty sep s) as (piece & pieces & Hs).
  rewrite Hs in *. destruct (Ascii.eqb_spec c sep) as [->|_].
  - change (join sep (EmptyString :: piece :: pieces))
      with (String sep (join sep (piece :: pieces))).
    now rewrite IH.
  - now rewrite join_cons_char, IH.
Qed.

Lemma lacks_false_split (sep : ascii) (s : string) :
  lacks sep s = false ->
  exists a b, s = a ++ String sep b /\ lacks sep a = true.
Proof.
  unfold lacks. induction s as [|c s IH]; simpl; [discriminate|].
  destruct (Ascii.eqb_spec c sep) as [->|Hc]; simpl.
  - intros _. now exists EmptyString, s.
  - intros H. destruct (IH H) as (a & b & -> & Ha).
    exists (String c a), b. split; [reflexivity|]. simpl.
    destruct (Ascii.eqb_spec c sep); [contradiction | exact Ha].
Qed.

(** ** The token read from the header *)

(** The token that [verifyToken] hands to [jwt.verify] is undefined exactly
    when the header contains no space, and when defined it contains no
    space itself. *)
Theorem bearer_token_defined (header : string) :
  (bearer_token header = None <-> lacks " " header = true) /\
  (forall token, bearer_token header = Some token -> lacks " " token = true).
Proof.
  split; [split|].
  - intros Hnone. destruct (lacks " " header) eqn:Hl; [reflexivity|].
    destruct (lacks_false_split _ _ Hl) as (a & b & -> & Ha).
    unfold bearer_token in Hnone. rewrite (split_app _ _ _ Ha) in Hnone.
    destruct (split_nonempty " " b) as (piece & pieces & Hb).
    rewrite Hb in Hnone. discriminate.
  - apply bearer_token_no_space.
  - intros token. unfold bearer_token, index.
    pose proof (split_pieces_lack " " header) as Hall.
    intros Hnth. apply nth_error_In in Hnth.
    rewrite Forall_forall in Hall. now apply Hall.
Qed.

(** ** Looking a username up *)

Lemma find_user_in (us : users) (name : string) :
  (exists account, find_user us name = Some account) <->
  In name (map username us).
Proof.
  split.
  - intros (account & H). apply find_some in H as [Hin Heq].
    apply String.eqb_eq in Heq. subst name. now apply in_map.
  - intros Hin. destruct (find_user us name) as [account|] eqn:H; [now eauto|].
    now apply find_user_none in H.
Qed.

(** [find] returns the earliest record with the username. *)
Lemma find_user_first (us : users) (name : string) (account : user) :
  find_user us name = Some account <->
  exists before after,
    us = (before ++ account :: after)%list /\
    username account = name /\
    ~ In name (map username before).
Proof.
  split.
  - induction us as [|u us IH]; [discriminate|].
    unfold find_user. simpl. destruct (String.eqb_spec (username u) name) as [He|Hne].
    + intros [= <-]. exists [], us. now repeat split.
    + intros H. destruct (IH H) as (before & after & -> & Hn & Hnot).
      exists (u :: before), after. repeat split; [assumption|].
      simpl. intros [|]; contradiction.
  - intros (before & after & -> & Hn & Hnot).
    rewrite find_user_app.
    destruct (find_user before name) as [a|] eqn:Hb.
    + exfalso. apply Hnot. apply find_user_in. now eauto.
    + unfold find_user. simpl. now rewrite Hn, String.eqb_refl.
Qed.

Lemma valid_fields (u p : field) (name pw : string) :
  u = Some name -> p = Some pw -> name <> "" -> pw <> "" ->
  falsy u || falsy p = false.
Proof.
  intros -> -> Hn Hp. apply falsy_some in Hn, Hp. now rewrite Hn, Hp.
Qed.

Section HandlerFacts.

Context {hasher : PasswordHasher} {codec : TokenCodec}.
Variable env : field.

(** *** The secret *)

(** The signing secret is never the empty string: it is the value of the
    environment variable exactly when that value is a non-empty string, and
    the built-in default otherwise. *)
Theorem JWT_SECRET_never_empty :
  JWT_SECRET env <> "" /\
  (forall s, env = Some s -> s <> "" -> JWT_SECRET env = s) /\
  (falsy env = true -> JWT_SECRET env = "clave_secreta_jwt").
Proof.
  unfold JWT_SECRET, or_else. destruct env as [s|]; simpl.
  - destruct (String.eqb_spec s "") as [->|Hs].
    + split; [discriminate|]. split; [|reflexivity].
      intros s' [= <-] Hs'. now contradiction Hs'.
    + split; [assumption|]. split; [|discriminate].
      now intros s' [= <-].
  - split; [discriminate|]. split; [discriminate | reflexivity].
Qed.

(** *** Registration, outcome by outcome *)

Lemma status_reply (code : Z) (text : string) : status (reply code text) = code.
Proof. reflexivity. Qed.

(** Register answers 400 exactly when a field is missing or empty (even if
    the username is taken), 409 exactly when both fields are given and the
    username is stored, 500 exactly when hashing fails for a new username,
    and 201 exactly when hashing succeeds for a new username, in which case
    the record with the hash is appended. *)
Theorem register_decision (u p : field) (salt : string) (us : users) :
  (status (fst (register u p salt us)) = 400 <->
   falsy u || falsy p = true) /\
  (status (fst (register u p salt us)) = 409 <->
   exists name pw,
     u = Some name /\ p = Some pw /\ name <> "" /\ pw <> "" /\
     In name (map username us)) /\
  (status (fst (register u p salt us)) = 500 <->
   exists name pw,
     u = Some name /\ p = Some pw /\ name <> "" /\ pw <> "" /\
     ~ In name (map username us) /\
     bcrypt_hash pw 10 salt = None) /\
  (status (fst (register u p salt us)) = 201 <->
   exists name pw hashed,
     u = Some name /\ p = Some pw /\ name <> "" /\ pw <> "" /\
     ~ In name (map username us) /\
     bcrypt_hash pw 10 salt = Some hashed /\
     snd (register u p salt us) = (us ++ [new_user us name hashed])%list).
Proof.
  destruct (register_cases u p salt us)
    as [Hf | name account Hu Hfu Hfp Hdup
        | name pw Hu Hp Hn Hw Hfree Hhash
        | name pw hashed Hu Hp Hn Hw Hfree Hhash];
    simpl fst; simpl snd; rewrite status_reply.
  - repeat split; try discriminate; try (intros; assumption).
    + intros (n & w & Hu & Hp & Hn & Hw & _).
      rewrite (valid_fields _ _ _ _ Hu Hp Hn Hw) in Hf. discriminate.
    + intros (n & w & Hu & Hp & Hn & Hw & _).
      rewrite (valid_fields _ _ _ _ Hu Hp Hn Hw) in Hf. discriminate.
    + intros (n & w & h & Hu & Hp & Hn & Hw & _).
      rewrite (valid_fields _ _ _ _ Hu Hp Hn Hw) in Hf. discriminate.
  - assert (Hin : In name (map username us))
      by (apply find_user_in; eauto).
    repeat split; try discriminate.
    + intros Hf. rewrite Hfu, Hfp in Hf. discriminate.
    + intros _. destruct p as [pw|]; [|discriminate].
      exists name, pw. subst u. repeat split; try assumption;
        now apply falsy_some.
    + intros (n & w & Hu' & _ & _ & _ & Hnot & _). congruence.
    + intros (n & w & h & Hu' & _ & _ & _ & Hnot & _). congruence.
  - pose proof (find_user_none _ _ Hfree) as Hnot.
    repeat split; try discriminate.
    + intros Hf. rewrite (valid_fields _ _ _ _ Hu Hp Hn Hw) in Hf. discriminate.
    + intros (n & w & Hu' & _ & _ & _ & Hin). congruence.
    + intros _. now exists name, pw.
    + intros (n & w & h & _ & Hp' & _ & _ & _ & Hh & _). congruence.
  - pose proof (find_user_none _ _ Hfree) as Hnot.
    repeat split; try discriminate.
    + intros Hf. rewrite (valid_fields _ _ _ _ Hu Hp Hn Hw) in Hf. discriminate.
    + intros (n & w & Hu' & _ & _ & _ & Hin). congruence.
    + intros (n & w & _ & Hp' & _ & _ & _ & Hh). congruence.
    + intros _. now exists name, pw, hashed.
Qed.

End HandlerFacts.

Section LoginFacts.

Context {hasher : PasswordHasher} {codec : TokenCodec}.
Variable env : field.

(** *** Login, against the earliest record *)

(** Login answers 200 exactly when both fields are given and the earliest
    stored record with that username has a hash that [bcrypt.compare]
    accepts; the token then names that record's id.  A later record with the
    same username is never consulted. *)
Theorem login_earliest_record (u p : field) (now_ms : Z) (us : users) :
  (status (login env u p now_ms us) = 200 <->
   exists name pw before account after,
     u = Some name /\ p = Some pw /\ name <> "" /\ pw <> "" /\
     us = (before ++ account :: after)%list /\
     username account = name /\
     ~ In name (map username before) /\
     bcrypt_compare pw (password account) = Some true) /\
  (forall name pw before account after,
     u = Some name -> p = Some pw -> name <> "" -> pw <> "" ->
     us = (before ++ account :: after)%list ->
     username account = name ->
     ~ In name (map username before) ->
     bcrypt_compare pw (password account) = Some true ->
     login env u p now_ms us
     = login_ok (jwt_sign (id account) name (JWT_SECRET env) ONE_HOUR now_ms)).
Proof.
  assert (Hback : forall name pw before account after,
     u = Some name -> p = Some pw -> name <> "" -> pw <> "" ->
     us = (before ++ account :: after)%list ->
     username account = name ->
     ~ In name (map username before) ->
     bcrypt_compare pw (password account) = Some true ->
     login env u p now_ms us
     = login_ok (jwt_sign (id account) name (JWT_SECRET env) ONE_HOUR now_ms)).
  { intros name pw before account after Hu Hp Hn Hw Hus Hacc Hnot Hgood.
    assert (Hfind : find_user us name = Some account)
      by (apply find_user_first; now exists before, after).
    unfold login. rewrite (valid_fields _ _ _ _ Hu Hp Hn Hw). subst u p.
    now rewrite Hfind, Hgood, Hacc. }
  split; [split|exact Hback].
  - destruct (login_cases env u p now_ms us)
      as [ | | | | name pw account Hu Hp Hn Hw Hfind Hgood]; try discriminate.
    intros _. apply find_user_first in Hfind
      as (before & after & Hus & Hacc & Hnot).
    now exists name, pw, before, account, after.
  - intros (name & pw & before & account & after
            & Hu & Hp & Hn & Hw & Hus & Hacc & Hnot & Hgood).
    now rewrite (Hback name pw before account after).
Qed.

Lemma login_lookup (name : string) (p : field) (now_ms : Z) (us us' : users) :
  find_user us name = find_user us' name ->
  login env (Some name) p now_ms us = login env (Some name) p now_ms us'.
Proof. intros H. unfold login. now rewrite H. Qed.

(** Once a username is stored, the answer to a Login naming it no longer
    depends on what is served afterwards: later requests cannot lock the
    account out or change which record is consulted. *)
Theorem login_stable (name : string) (p : field) (now_ms : Z)
        (us : users) (rqs : list request) (account : user) :
  find_user us name = Some account ->
  login env (Some name) p now_ms (serve_all env rqs us)
  = login env (Some name) p now_ms us.
Proof.
  intros Hfind. apply login_lookup.
  destruct (serve_all_extends env rqs us) as [added ->].
  now rewrite (find_user_extends _ added _ _ Hfind).
Qed.

(** *** The status codes *)

(** The three routes answer with these status codes and no others. *)
Theorem status_codes (rq : request) (us : users) :
  match rq with
  | PostRegister _ _ _ =>
      In (status (fst (serve env rq us))) [201; 400; 409; 500]
  | PostLogin _ _ _ =>
      In (status (fst (serve env rq us))) [200; 400; 401; 500]
  | GetProtegido _ _ =>
      In (status (fst (serve env rq us))) [200; 401; 403]
  end.
Proof.
  destruct rq as [u p salt | u p now_ms | h now_ms]; simpl fst.
  - simpl serve. destruct (register_cases u p salt us); simpl; tauto.
  - simpl serve. simpl fst.
    destruct (login_cases env u p now_ms us); simpl; tauto.
  - simpl serve. simpl fst. unfold protegido, verifyToken.
    destruct (falsy h); [simpl; tauto|].
    destruct h as [header|]; [|simpl; tauto].
    destruct jwt_verify; simpl; tauto.
Qed.

(** *** Two spaces after the scheme *)

(** When the scheme word is followed by two spaces (or by one space and
    nothing else), the token handed to [jwt.verify] is the empty string and
    the answer is 401, whatever follows. *)
Theorem double_space_rejected (scheme rest : string) (now_ms : Z) :
  lacks " " scheme = true ->
  bearer_token (scheme ++ " " ++ " " ++ rest) = Some "" /\
  bearer_token (scheme ++ " ") = Some "" /\
  protegido env (Some (scheme ++ " " ++ " " ++ rest)) now_ms
    = reply 401 "Token inválido" /\
  protegido env (Some (scheme ++ " ")) now_ms = reply 401 "Token inválido".
Proof.
  intros Hs.
  assert (H2 : bearer_token (scheme ++ " " ++ " " ++ rest) = Some "").
  { change (scheme ++ " " ++ " " ++ rest)
      with (scheme ++ " " ++ "" ++ " " ++ rest).
    now apply bearer_token_piece. }
  assert (H1 : bearer_token (scheme ++ " ") = Some "").
  { change (scheme ++ " ") with (scheme ++ " " ++ "").
    now apply bearer_token_scheme. }
  split; [exact H2|]. split; [exact H1|]. split.
  - rewrite protegido_present by apply scheme_header_nonempty.
    now rewrite H2.
  - change (scheme ++ " ") with (scheme ++ " " ++ "") in *.
    rewrite protegido_present by apply scheme_header_nonempty.
    now rewrite H1.
Qed.

End LoginFacts.

(** ** The event loop, under every interleaving *)

Lemma NoDup_map_injective {A B} (f : A -> B) (l : list A) :
  (forall x y, f x = f y -> x = y) -> NoDup l -> NoDup (map f l).
Proof.
  intros Hinj. induction 1 as [|x l Hx Hl IH]; simpl; constructor; auto.
  intros Hin. apply in_map_iff in Hin as (y & Hy & Hin).
  apply Hinj in Hy. now subst y.
Qed.

Lemma numbered_NoDup (us : users) : numbered us -> NoDup (map id us).
Proof.
  unfold numbered. intros ->. apply NoDup_map_injective; [|apply seq_NoDup].
  intros x y H. lia.
Qed.

Lemma numbered_push (us : users) (name hashed : string) :
  numbered us -> numbered (us ++ [new_user us name hashed])%list.
Proof.
  unfold numbered. intros H.
  rewrite map_app, length_app, H. simpl.
  rewrite Nat.add_1_r, seq_S, map_app. reflexivity.
Qed.

Lemma remove_nth_split {A} (k : nat) (l : list A) (x : A) :
  nth_error l k = Some x ->
  exists l1 l2, l = (l1 ++ x :: l2)%list /\ remove_nth k l = (l1 ++ l2)%list.
Proof.
  intros H. apply nth_error_split in H as (l1 & l2 & -> & <-).
  exists l1, l2. split; [reflexivity|]. unfold remove_nth.
  induction l1 as [|a l1 IH]; [reflexivity|].
  cbn [List.length app]. rewrite firstn_cons, skipn_cons.
  cbn [app]. now rewrite IH.
Qed.

Section LoopFacts.

Context {hasher : PasswordHasher}.

Lemma run_turn_cases (s : loop) (t : turn) : turn_outcome s t (run_turn s t).
Proof.
  destruct t as [u p | k salt]; simpl.
  - unfold register_begin.
    destruct (falsy u || falsy p) eqn:Hf.
    + apply TurnAnswered; [|now left].
      unfold register_begin. now rewrite Hf.
    + destruct u as [name|]; [|discriminate].
      destruct p as [pw|]; [|now destruct (falsy (Some name))].
      destruct (find_user (store s) name) eqn:Hfind.
      * apply TurnAnswered; [|now right].
        unfold register_begin. now rewrite Hf, Hfind.
      * now apply TurnSuspended.
  - destruct (nth_error (suspended s) k) as [[name pw]|] eqn:Hk.
    + destruct (bcrypt_hash pw 10 salt) as [hashed|] eqn:Hh; simpl.
      * now apply (TurnCreated _ _ _ name pw hashed).
      * now apply (TurnFailed _ _ _ name pw).
    + destruct s. now apply TurnIdle.
Qed.

Lemma run_turns_cons (t : turn) (ts : list turn) (s : loop) :
  run_turns (t :: ts) s = run_turns ts (run_turn s t).
Proof. reflexivity. Qed.

Lemma run_turns_invariant (P : loop -> Prop) :
  (forall s t, P s -> P (run_turn s t)) ->
  forall ts s, P s -> P (run_turns ts s).
Proof.
  intros Hstep ts. induction ts as [|t ts IH]; intros s Hs; [exact Hs|].
  rewrite run_turns_cons. now apply IH, Hstep.
Qed.

(** Under every interleaving of register handlers, starting from the empty
    store, the ids are the positions 1, 2, ..., n: they stay pairwise
    distinct even when usernames do not. *)
Theorem ids_numbered_under_interleaving (ts : list turn) :
  numbered (store (run_turns ts (idle []))) /\
  NoDup (map id (store (run_turns ts (idle [])))).
Proof.
  assert (H : numbered (store (run_turns ts (idle [])))).
  { apply (run_turns_invariant (fun s => numbered (store s)));
      [|reflexivity].
    intros s t Hs. destruct (run_turn_cases s t); simpl; try assumption.
    now apply numbered_push. }
  split; [exact H | now apply numbered_NoDup].
Qed.

Lemma run_turns_extends (ts : list turn) (s : loop) :
  exists added, store (run_turns ts s) = (store s ++ added)%list.
Proof.
  revert s. induction ts as [|t ts IH]; intros s.
  - exists []. now rewrite app_nil_r.
  - rewrite run_turns_cons. destruct (IH (run_turn s t)) as [added ->].
    destruct (run_turn_cases s t); simpl;
      try (now exists added).
    eexists. now rewrite <- app_assoc.
Qed.

(** Under every interleaving the store only grows at its end: whatever runs
    next, the records already stored stay as they are, in place. *)
Theorem store_append_only_under_interleaving (ts more : list turn) (s : loop) :
  exists added,
    store (run_turns (ts ++ more) s)
    = (store (run_turns ts s) ++ added)%list.
Proof.
  unfold run_turns. rewrite fold_left_app. apply run_turns_extends.
Qed.

Lemma created_snoc (rs : list response) (r : response) :
  created (rs ++ [r]) = (created rs + (if (status r =? 201)%Z then 1 else 0))%nat.
Proof.
  unfold created. rewrite filter_app, length_app. simpl.
  now destruct (status r =? 201).
Qed.

(** Under every interleaving the store holds exactly one more record for
    each 201 answered. *)
Theorem one_record_per_created_interleaved (ts : list turn) (us : users) :
  List.length (store (run_turns ts (idle us)))
  = (List.length us + created (replies (run_turns ts (idle us))))%nat.
Proof.
  assert (H : forall s,
    (List.length (store (run_turns ts s)) + created (replies s))%nat
    = (List.length (store s) + created (replies (run_turns ts s)))%nat).
  { induction ts as [|t ts IH]; intros s; [reflexivity|].
    rewrite run_turns_cons. generalize (IH (run_turn s t)).
    destruct (run_turn_cases s t) as [u p r _ [Hr|Hr] | | | | ];
      simpl; rewrite ?created_snoc, ?length_app, ?Hr; simpl; lia. }
  specialize (H (idle us)). simpl in H. unfold created in H at 1.
  simpl in H. lia.
Qed.

End LoopFacts.

Section InterleavingFacts.

Context {hasher : PasswordHasher}.

Lemma arrivals_cons (t : turn) (ts : list turn) :
  exists here, arrivals (t :: ts) = (here ++ arrivals ts)%list /\
               (forall name p, t = Arrives (Some name) p -> here = [name]).
Proof.
  destruct t as [[name|] p | k salt].
  - exists [name]. split; [reflexivity|]. now intros n q [= <-].
  - exists []. split; [reflexivity|]. intros n q H. discriminate H.
  - exists []. split; [reflexivity|]. intros n q H. discriminate H.
Qed.

Lemma names_in_play_run (ts : list turn) :
  forall s,
    NoDup (names_in_play s) ->
    NoDup (arrivals ts) ->
    (forall n, In n (arrivals ts) -> ~ In n (map fst (suspended s))) ->
    NoDup (names_in_play (run_turns ts s)).
Proof.
  induction ts as [|t ts IH]; intros s HQ Hnd Hdisj; [exact HQ|].
  rewrite run_turns_cons.
  destruct (arrivals_cons t ts) as (here & Harr & Hhere).
  rewrite Harr in Hnd, Hdisj.
  assert (Hrest : NoDup (arrivals ts)) by now apply NoDup_app_remove_l in Hnd.
  assert (Hold : forall n, In n (arrivals ts) ->
                           ~ In n (map fst (suspended s)))
    by (intros n Hn; apply Hdisj, in_or_app; now right).
  unfold names_in_play in *.
  destruct (run_turn_cases s t)
    as [u p r _ _ | u p name pw Hu Hfree | k salt _
        | k salt name pw hashed Hk _ | k salt name pw Hk _].
  - now apply IH.
  - subst u. rewrite (Hhere name p eq_refl) in Hnd, Hdisj. simpl in Hnd, Hdisj.
    apply NoDup_cons_iff in Hnd as [Hfresh _].
    apply IH; simpl; try assumption.
    + rewrite map_app, app_assoc. simpl. apply NoDup_snoc; [assumption|].
      intros Hin. apply in_app_or in Hin as [Hin|Hin].
      * now apply find_user_none in Hfree.
      * apply (Hdisj name); [now left | assumption].
    + intros n Hn. rewrite map_app, in_app_iff. simpl.
      intros [Hin|[<-|[]]]; [now apply (Hold n) | contradiction].
  - now apply IH.
  - destruct (remove_nth_split _ _ _ Hk) as (l1 & l2 & Hs & Hrm).
    rewrite Hs in HQ, Hold. rewrite map_app in HQ. simpl in HQ.
    apply IH; simpl; try assumption; rewrite Hrm.
    + rewrite !map_app. simpl.
      eapply Permutation_NoDup; [|exact HQ].
      rewrite <- !app_assoc. apply Permutation_app_head. simpl.
      symmetry. apply Permutation_middle.
    + intros n Hn Hin. apply (Hold n Hn).
      rewrite map_app in *. simpl. apply in_app_or in Hin as [|].
      * apply in_or_app. now left.
      * apply in_or_app. right. now right.
  - destruct (remove_nth_split _ _ _ Hk) as (l1 & l2 & Hs & Hrm).
    rewrite Hs in HQ, Hold. rewrite map_app in HQ. simpl in HQ.
    apply IH; simpl; try assumption; rewrite Hrm.
    + rewrite map_app. rewrite app_assoc in *.
      now apply NoDup_remove_1 in HQ.
    + intros n Hn Hin. apply (Hold n Hn).
      rewrite map_app in *. simpl. apply in_app_or in Hin as [|].
      * apply in_or_app. now left.
      * apply in_or_app. right. now right.
Qed.

(** When no two register requests dispatched during a run name the same
    username, the stored usernames stay pairwise distinct under every
    interleaving: the race needs the same username in flight twice. *)
Theorem distinct_arrivals_never_collide (ts : list turn) (us : users) :
  NoDup (map username us) ->
  NoDup (arrivals ts) ->
  NoDup (map username (store (run_turns ts (idle us)))).
Proof.
  intros Hus Hnd.
  assert (H : NoDup (names_in_play (run_turns ts (idle us)))).
  { apply names_in_play_run; try assumption.
    - unfold names_in_play. simpl. now rewrite app_nil_r.
    - intros n _ []. }
  unfold names_in_play in H. now apply NoDup_app_remove_r in H.
Qed.

End InterleavingFacts.

Section SequentialFacts.

Context {hasher : PasswordHasher} {codec : TokenCodec}.
Variable env : field.

Lemma numbered_serve (rq : request) (us : users) :
  numbered us -> numbered (snd (serve env rq us)).
Proof.
  intros Hn. destruct rq as [u p salt | |]; simpl; try assumption.
  destruct (register_cases u p salt us); simpl; try assumption.
  now apply numbered_push.
Qed.

(** Served one after the other from the empty store, the requests leave
    accounts whose ids are their positions 1, 2, ..., n: an id is assigned
    once, in order of creation, and never reused. *)
Theorem sequential_ids_numbered (rqs : list request) :
  numbered (serve_all env rqs []).
Proof.
  assert (H : forall us, numbered us -> numbered (serve_all env rqs us)).
  { induction rqs as [|rq rqs IH]; intros us Hn; simpl; [assumption|].
    now apply IH, numbered_serve. }
  now apply H.
Qed.

(** Served one after the other, the requests leave exactly one more record
    for each 201 answered; Login and the protected route add none. *)
Theorem one_record_per_created_sequential (rqs : list request) (us : users) :
  List.length (serve_all env rqs us)
  = (List.length us + created (serve_log env rqs us))%nat.
Proof.
  revert us. induction rqs as [|rq rqs IH]; intros us; simpl.
  - unfold created. simpl. lia.
  - rewrite IH. unfold created. simpl.
    destruct rq as [u p salt | u p now_ms | h now_ms]; simpl.
    + destruct (register_cases u p salt us); simpl; rewrite ?length_app;
        simpl; lia.
    + destruct (login_cases env u p now_ms us); simpl; lia.
    + unfold protegido, verifyToken. destruct (falsy h); [simpl; lia|].
      destruct h; [|simpl; lia]. destruct jwt_verify; simpl; lia.
Qed.

End SequentialFacts.

(** * The handlers run on concrete requests

    The session of section 8 of the specification, on the executable
    instance: alice registers, logs in at second 5, and presents the token. *)

Definition alice_stored : user :=
  {| id := 1; username := "alice"; password := "$toy$s3cret!" |}.

Definition alice_token : string :=
  jwt_sign (codec := toy_codec) 1 "alice" (JWT_SECRET None) ONE_HOUR 5000.

Definition alice_claims : claims :=
  {| sub_id := 1; sub_username := "alice"; iat := 5; exp := 3605 |}.

Example register_alice :
  register (hasher := toy_hasher) (Some "alice") (Some "s3cret!") "salt" []
  = (reply 201 "Usuario registrado exitosamente", [alice_stored]).
Proof. reflexivity. Qed.

Example login_alice :
  login (hasher := toy_hasher) (codec := toy_codec) None
        (Some "alice") (Some "s3cret!") 5000 [alice_stored]
  = login_ok alice_token.
Proof. reflexivity. Qed.

Example verify_forged :
  jwt_verify (codec := toy_codec) (Some alice_token) "another secret" 6000
  = Failed InvalidSignature.
Proof. vm_compute. reflexivity. Qed.

Example verify_garbage :
  jwt_verify (codec := toy_codec) (Some "abc") (JWT_SECRET None) 6000
  = Failed Malformed.
Proof. reflexivity. Qed.

Example verify_at_expiry :
  jwt_verify (codec := toy_codec) (Some alice_token) (JWT_SECRET None) 3605000
  = Failed Expired.
Proof. vm_compute. reflexivity. Qed.

(** After two overlapping registrations of alice, the second password does
    not log in: [find] returns the first record. *)
Example login_after_overlapping_registrations :
  let final :=
    run_turns (hasher := toy_hasher)
      [Arrives (Some "alice") (Some "s3cret!");
       Arrives (Some "alice") (Some "other");
       HashSettles 0 "salt"; HashSettles 0 "pepper"] (idle []) in
  login (hasher := toy_hasher) (codec := toy_codec) None
        (Some "alice") (Some "other") 5000 (store final)
  = reply 401 "Error en la autenticación".
Proof. reflexivity. Qed.

Lemma round_trip_lost_after_overlap_witness :
  bcrypt_compare (PasswordHasher := toy_hasher) "other" "$toy$s3cret!"
    = Some false /\
  let final :=
    run_turns (hasher := toy_hasher)
      [Arrives (Some "alice") (Some "s3cret!");
       Arrives (Some "alice") (Some "other");
       HashSettles 0 "salt"; HashSettles 0 "pepper"] (idle []) in
  map status (replies final) = [201; 201] /\
  status (login (hasher := toy_hasher) (codec := toy_codec) None
            (Some "alice") (Some "other") 5000 (store final)) = 401 /\
  member "token"
    (body (login (hasher := toy_hasher) (codec := toy_codec) None
             (Some "alice") (Some "other") 5000 (store final))) = None.
Proof.
  split; [reflexivity|].
  apply (round_trip_lost_after_overlap
           (hasher := toy_hasher) (codec := toy_codec) None []
           "alice" "s3cret!" "other" "salt" "pepper"
           "$toy$s3cret!" "$toy$other" 5000);
    (discriminate || reflexivity).
Defined.

Lemma sequential_round_trip_witness :
  status (fst (register (hasher := toy_hasher)
                 (Some "alice") (Some "s3cret!") "salt" [])) = 201 /\
  3604999 < (5000 / 1000 + 3600) * 1000 /\
  status (login (hasher := toy_hasher) (codec := toy_codec) None
            (Some "alice") (Some "s3cret!") 5000
            (serve_all (hasher := toy_hasher) (codec := toy_codec) None
               [PostLogin (Some "ghost") (Some "anything") 100;
                PostRegister (Some "bob") (Some "hunter2") "pepper"]
               [alice_stored])) = 200 /\
  exists hashed token decoded,
    snd (register (hasher := toy_hasher)
           (Some "alice") (Some "s3cret!") "salt" [])
      = ([] ++ [{| id := Z.of_nat (List.length (@nil user)) + 1;
                   username := "alice";
                   password := hashed |}])%list /\
    status (login (hasher := toy_hasher) (codec := toy_codec) None
              (Some "alice") (Some "s3cret!") 5000
              (serve_all (hasher := toy_hasher) (codec := toy_codec) None
                 [PostLogin (Some "ghost") (Some "anything") 100;
                  PostRegister (Some "bob") (Some "hunter2") "pepper"]
                 (snd (register (hasher := toy_hasher)
                         (Some "alice") (Some "s3cret!") "salt" [])))) = 200 /\
    member "token"
      (body (login (hasher := toy_hasher) (codec := toy_codec) None
               (Some "alice") (Some "s3cret!") 5000
               (serve_all (hasher := toy_hasher) (codec := toy_codec) None
                  [PostLogin (Some "ghost") (Some "anything") 100;
                   PostRegister (Some "bob") (Some "hunter2") "pepper"]
                  (snd (register (hasher := toy_hasher)
                          (Some "alice") (Some "s3cret!") "salt" [])))))
      = Some (JStr token) /\
    status (protegido (codec := toy_codec) None
              (Some ("Bearer " ++ token)) 3604999) = 200 /\
    member "user"
      (body (protegido (codec := toy_codec) None
               (Some ("Bearer " ++ token)) 3604999))
      = Some (JObj [("id", JNum (sub_id decoded));
                    ("username", JStr (sub_username decoded));
                    ("iat", JNum (iat decoded));
                    ("exp", JNum (exp decoded))]) /\
    sub_id decoded = Z.of_nat (List.length (@nil user)) + 1 /\
    sub_username decoded = "alice".
Proof.
  split; [reflexivity|]. split; [reflexivity|]. split; [reflexivity|].
  apply (sequential_round_trip
           (hasher := toy_hasher) (codec := toy_codec) None []
           "alice" "s3cret!" "salt"
           [PostLogin (Some "ghost") (Some "anything") 100;
            PostRegister (Some "bob") (Some "hunter2") "pepper"]
           5000 3604999); reflexivity.
Defined.

Lemma login_failures_indistinguishable_witness :
  find_user [alice_stored] "ghost" = None /\
  find_user [alice_stored] "alice" = Some alice_stored /\
  bcrypt_compare (PasswordHasher := toy_hasher) "wrong" (password alice_stored)
    = Some false /\
  login (hasher := toy_hasher) (codec := toy_codec) None
        (Some "ghost") (Some "anything") 100 [alice_stored]
    = login (hasher := toy_hasher) (codec := toy_codec) None
            (Some "alice") (Some "wrong") 200 [alice_stored] /\
  login (hasher := toy_hasher) (codec := toy_codec) None
        (Some "ghost") (Some "anything") 100 [alice_stored]
    = reply 401 "Error en la autenticación".
Proof.
  split; [reflexivity|]. split; [reflexivity|]. split; [reflexivity|].
  apply (login_failures_indistinguishable
           (hasher := toy_hasher) (codec := toy_codec) None [alice_stored]
           "ghost" "anything" "alice" "wrong" alice_stored 100 200);
    (discriminate || reflexivity).
Defined.

Lemma register_once_then_duplicate_witness :
  find_user [] "alice" = None /\
  bcrypt_hash (PasswordHasher := toy_hasher) "s3cret!" 10 "salt"
    = Some "$toy$s3cret!" /\
  let later :=
    serve_all (hasher := toy_hasher) (codec := toy_codec) None
      [PostRegister (Some "bob") (Some "hunter2") "pepper";
       PostRegister (Some "alice") (Some "again") "salt"]
      [alice_stored] in
  register (hasher := toy_hasher) (Some "alice") (Some "s3cret!") "salt" []
    = (reply 201 "Usuario registrado exitosamente", [alice_stored]) /\
  snd (register (hasher := toy_hasher)
         (Some "alice") (Some "other") "salt" later) = later /\
  status (fst (register (hasher := toy_hasher)
                 (Some "alice") (Some "other") "salt" later)) <> 201 /\
  (falsy (Some "other") = false ->
   register (hasher := toy_hasher) (Some "alice") (Some "other") "salt" later
     = (reply 409 "El usuario ya existe", later)).
Proof.
  split; [reflexivity|]. split; [reflexivity|].
  apply (register_once_then_duplicate
           (hasher := toy_hasher) (codec := toy_codec) None []
           "alice" "s3cret!" "salt" "$toy$s3cret!"
           [PostRegister (Some "bob") (Some "hunter2") "pepper";
            PostRegister (Some "alice") (Some "again") "salt"]
           (Some "other") "salt");
    (discriminate || reflexivity).
Defined.

Lemma token_lifetime_one_hour_witness :
  status (login (hasher := toy_hasher) (codec := toy_codec) None
            (Some "alice") (Some "s3cret!") 5999 [alice_stored]) = 200 /\
  exists token decoded,
    member "token"
      (body (login (hasher := toy_hasher) (codec := toy_codec) None
               (Some "alice") (Some "s3cret!") 5999 [alice_stored]))
      = Some (JStr token) /\
    jwt_decode (codec := toy_codec) token = Some decoded /\
    iat decoded = 5999 / 1000 /\
    exp decoded = 5999 / 1000 + 3600 /\
    (forall later_ms,
        exp decoded * 1000 <= later_ms ->
        jwt_verify (codec := toy_codec) (Some token) (JWT_SECRET None) later_ms
          = Failed Expired /\
        status (protegido (codec := toy_codec) None
                  (Some ("Bearer " ++ token)) later_ms) = 401 /\
        body (protegido (codec := toy_codec) None
                (Some ("Bearer " ++ token)) later_ms)
          = JObj [("message", JStr "Token inválido")]) /\
    (forall later_ms,
        later_ms < exp decoded * 1000 ->
        jwt_verify (codec := toy_codec) (Some token) (JWT_SECRET None) later_ms
          = Verified decoded /\
        status (protegido (codec := toy_codec) None
                  (Some ("Bearer " ++ token)) later_ms) = 200 /\
        member "user"
          (body (protegido (codec := toy_codec) None
                   (Some ("Bearer " ++ token)) later_ms))
          = Some (JObj [("id", JNum (sub_id decoded));
                        ("username", JStr (sub_username decoded));
                        ("iat", JNum (5999 / 1000));
                        ("exp", JNum (5999 / 1000 + 3600))])) /\
    (forall later_ms,
        5999 <= later_ms <= 5999 + 3599000 ->
        status (protegido (codec := toy_codec) None
                  (Some ("Bearer " ++ token)) later_ms) = 200) /\
    (forall later_ms,
        5999 + 3600000 <= later_ms ->
        status (protegido (codec := toy_codec) None
                  (Some ("Bearer " ++ token)) later_ms) = 401).
Proof.
  split; [reflexivity|].
  apply (token_lifetime_one_hour
           (hasher := toy_hasher) (codec := toy_codec) None
           (Some "alice") (Some "s3cret!") 5999 [alice_stored]).
  reflexivity.
Defined.

(** The token issued at millisecond 5999 (second 5) is refused at
    millisecond 3605000, 3599.001 seconds after issue, and accepted the
    millisecond before. *)
Example expiry_to_the_millisecond :
  let token :=
    jwt_sign (codec := toy_codec) 1 "alice" (JWT_SECRET None) ONE_HOUR 5999 in
  status (protegido (codec := toy_codec) None
            (Some ("Bearer " ++ token)) 3604999) = 200 /\
  status (protegido (codec := toy_codec) None
            (Some ("Bearer " ++ token)) 3605000) = 401.
Proof. vm_compute. split; reflexivity. Qed.

Lemma authorize_failure_mapping_witness :
  jwt_verify (codec := toy_codec) (bearer_token ("Bearer " ++ alice_token))
             (JWT_SECRET None) 3605000 = Failed Expired /\
  protegido (codec := toy_codec) None (Some ("Bearer " ++ alice_token)) 3605000
    = reply 401 "Token inválido".
Proof.
  split; [vm_compute; reflexivity|].
  apply (proj1 (proj2 (authorize_failure_mapping
                         (codec := toy_codec) None
                         (Some ("Bearer " ++ alice_token)) 3605000))
               ("Bearer " ++ alice_token) Expired);
    [reflexivity | discriminate | vm_compute; reflexivity].
Defined.

Lemma failure_leaves_no_partial_state_witness :
  status (fst (register (hasher := toy_hasher)
                 (Some "bob") (Some "hunter2") "" [alice_stored])) <> 201 /\
  status (login (hasher := toy_hasher) (codec := toy_codec) None
            (Some "bob") (Some "hunter2") 100 [alice_stored]) <> 200 /\
  register_begin (Some "bob") (Some "hunter2") [alice_stored]
    = AwaitHash "bob" "hunter2" /\
  bcrypt_hash (PasswordHasher := toy_hasher) "hunter2" 10 "" = None /\
  snd (register (hasher := toy_hasher)
         (Some "bob") (Some "hunter2") "" [alice_stored]) = [alice_stored] /\
  member "token"
    (body (login (hasher := toy_hasher) (codec := toy_codec) None
             (Some "bob") (Some "hunter2") 100 [alice_stored])) = None /\
  register (hasher := toy_hasher) (Some "bob") (Some "hunter2") "" [alice_stored]
    = (reply 500 "Error interno del servidor", [alice_stored]).
Proof.
  destruct (failure_leaves_no_partial_state
              (hasher := toy_hasher) (codec := toy_codec) None
              (Some "bob") (Some "hunter2") "" 100 [alice_stored])
    as (Hregister & Hlogin & Hhash).
  assert (H1 : status (fst (register (hasher := toy_hasher)
                  (Some "bob") (Some "hunter2") "" [alice_stored])) <> 201)
    by discriminate.
  assert (H2 : status (login (hasher := toy_hasher) (codec := toy_codec) None
                  (Some "bob") (Some "hunter2") 100 [alice_stored]) <> 200)
    by discriminate.
  split; [exact H1|]. split; [exact H2|].
  split; [reflexivity|]. split; [reflexivity|].
  split; [exact (Hregister H1)|]. split; [exact (Hlogin H2)|].
  exact (Hhash "bob" "hunter2" eq_refl eq_refl).
Defined.

Lemma authorize_idempotent_witness :
  verifyToken (codec := toy_codec) None (Some ("Bearer " ++ alice_token)) 6000
    = inr alice_claims /\
  clock_timestamp 3604999 < exp alice_claims /\
  serve (hasher := toy_hasher) (codec := toy_codec) None
        (GetProtegido (Some ("Bearer " ++ alice_token)) 6000) [alice_stored]
    = (protegido_ok alice_claims, [alice_stored]) /\
  serve (hasher := toy_hasher) (codec := toy_codec) None
        (GetProtegido (Some ("Bearer " ++ alice_token)) 3604999)
        (serve_all (hasher := toy_hasher) (codec := toy_codec) None
           [PostRegister (Some "bob") (Some "hunter2") "pepper"] [alice_stored])
    = (protegido_ok alice_claims,
       serve_all (hasher := toy_hasher) (codec := toy_codec) None
         [PostRegister (Some "bob") (Some "hunter2") "pepper"] [alice_stored]).
Proof.
  split; [vm_compute; reflexivity|]. split; [reflexivity|].
  apply (authorize_idempotent
           (hasher := toy_hasher) (codec := toy_codec) None
           (Some ("Bearer " ++ alice_token)) 6000 3604999 alice_claims
           [alice_stored]
           [PostRegister (Some "bob") (Some "hunter2") "pepper"]);
    [vm_compute; reflexivity | reflexivity].
Defined.

Lemma concurrent_register_race_witness :
  let final :=
    run_turns (hasher := toy_hasher)
      [Arrives (Some "alice") (Some "s3cret!");
       Arrives (Some "alice") (Some "other");
       HashSettles 0 "salt"; HashSettles 0 "pepper"] (idle []) in
  final = {| store := [alice_stored;
                       {| id := 2; username := "alice";
                          password := "$toy$other" |}];
             suspended := [];
             replies := [reply 201 "Usuario registrado exitosamente";
                         reply 201 "Usuario registrado exitosamente"] |} /\
  ~ NoDup (map username (store final)).
Proof.
  apply (concurrent_register_race (hasher := toy_hasher) []
           "alice" "s3cret!" "other" "salt" "pepper"
           "$toy$s3cret!" "$toy$other");
    (discriminate || reflexivity).
Defined.

Lemma bearer_header_parsing_witness :
  (bearer_token ("Token" ++ " " ++ alice_token) = Some alice_token /\
   bearer_token ("Token" ++ " " ++ alice_token ++ " " ++ "tail")
     = Some alice_token /\
   protegido (codec := toy_codec) None
             (Some ("Token" ++ " " ++ alice_token)) 6000
     = protegido_ok alice_claims) /\
  (bearer_token alice_token = None /\
   protegido (codec := toy_codec) None (Some alice_token) 6000
     = reply 401 "Token inválido") /\
  protegido (codec := toy_codec) None (Some "") 6000
    = reply 403 "Token no proporcionado".
Proof.
  destruct (bearer_header_parsing (codec := toy_codec) None
              "Token" alice_token "tail" alice_token alice_claims 6000)
    as (Hscheme & Hbare & Hempty).
  split; [|split; [|exact Hempty]].
  - destruct Hscheme as (H1 & H2 & H3); [reflexivity | vm_compute; reflexivity |].
    split; [exact H1|]. split; [exact H2|].
    apply H3. vm_compute. reflexivity.
  - apply Hbare; [discriminate | vm_compute; reflexivity].
Defined.

(** C10 (as stated) fails.  With a second space in the header the token is
    not the substring after the first space: behind [Bearer <token> x] the
    code verifies [<token>] and answers 200, where the substring after the
    first space, [<token> x], does not verify.  And the empty header value,
    which contains no space, is answered 403, not 401. *)
Lemma bearer_header_parsing_counterexample :
  bearer_token ("Bearer " ++ alice_token ++ " x") = Some alice_token /\
  spec_token_after_first_space ("Bearer " ++ alice_token ++ " x")
    = Some (alice_token ++ " x") /\
  jwt_verify (codec := toy_codec)
             (spec_token_after_first_space ("Bearer " ++ alice_token ++ " x"))
             (JWT_SECRET None) 6000 = Failed InvalidSignature /\
  protegido (codec := toy_codec) None
            (Some ("Bearer " ++ alice_token ++ " x")) 6000
    = protegido_ok alice_claims /\
  lacks " " "" = true /\
  status (protegido (codec := toy_codec) None (Some "") 6000) = 403.
Proof. vm_compute. repeat split; reflexivity. Qed.

(** ** Further runs on concrete requests *)

Definition alice_again : user :=
  {| id := 2; username := "alice"; password := "$toy$other" |}.

Lemma register_decision_witness :
  exists name pw hashed,
    Some "alice" = Some name /\ Some "s3cret!" = Some pw /\
    name <> "" /\ pw <> "" /\
    ~ In name (map username []) /\
    bcrypt_hash (PasswordHasher := toy_hasher) pw 10 "salt" = Some hashed /\
    snd (register (hasher := toy_hasher)
           (Some "alice") (Some "s3cret!") "salt" [])
      = ([] ++ [new_user [] name hashed])%list.
Proof.
  apply (proj1 (proj2 (proj2 (proj2
           (register_decision (hasher := toy_hasher)
              (Some "alice") (Some "s3cret!") "salt" []))))).
  reflexivity.
Defined.

Lemma login_earliest_record_witness :
  login (hasher := toy_hasher) (codec := toy_codec) None
        (Some "alice") (Some "s3cret!") 5000 [alice_stored; alice_again]
  = login_ok alice_token /\
  login (hasher := toy_hasher) (codec := toy_codec) None
        (Some "alice") (Some "other") 5000 [alice_stored; alice_again]
  = reply 401 "Error en la autenticación".
Proof.
  split; [|reflexivity].
  apply (proj2 (login_earliest_record
                  (hasher := toy_hasher) (codec := toy_codec) None
                  (Some "alice") (Some "s3cret!") 5000
                  [alice_stored; alice_again])
               "alice" "s3cret!" [] alice_stored [alice_again]);
    try reflexivity; try discriminate.
  intros [].
Defined.

Lemma login_stable_witness :
  find_user [alice_stored] "alice" = Some alice_stored /\
  login (hasher := toy_hasher) (codec := toy_codec) None
        (Some "alice") (Some "s3cret!") 5000
        (serve_all (hasher := toy_hasher) (codec := toy_codec) None
           [PostRegister (Some "alice") (Some "other") "salt";
            PostRegister (Some "bob") (Some "hunter2") "pepper"]
           [alice_stored])
  = login (hasher := toy_hasher) (codec := toy_codec) None
          (Some "alice") (Some "s3cret!") 5000 [alice_stored].
Proof.
  split; [reflexivity|].
  apply (login_stable (hasher := toy_hasher) (codec := toy_codec) None
           "alice" (Some "s3cret!") 5000 [alice_stored]
           [PostRegister (Some "alice") (Some "other") "salt";
            PostRegister (Some "bob") (Some "hunter2") "pepper"]
           alice_stored).
  reflexivity.
Defined.

Lemma bearer_token_defined_witness :
  bearer_token alice_token = None /\
  lacks " " alice_token = true.
Proof.
  assert (H : lacks " " alice_token = true) by (vm_compute; reflexivity).
  split; [|exact H].
  exact (proj2 (proj1 (bearer_token_defined alice_token)) H).
Defined.

Lemma double_space_rejected_witness :
  lacks " " "Bearer" = true /\
  bearer_token ("Bearer" ++ " " ++ " " ++ alice_token) = Some "" /\
  bearer_token ("Bearer" ++ " ") = Some "" /\
  protegido (codec := toy_codec) None
            (Some ("Bearer" ++ " " ++ " " ++ alice_token)) 6000
    = reply 401 "Token inválido" /\
  protegido (codec := toy_codec) None (Some ("Bearer" ++ " ")) 6000
    = reply 401 "Token inválido".
Proof.
  split; [reflexivity|].
  apply (double_space_rejected (codec := toy_codec) None
           "Bearer" alice_token 6000).
  reflexivity.
Defined.

Lemma distinct_arrivals_never_collide_witness :
  NoDup (map username [alice_stored]) /\
  NoDup (arrivals [Arrives (Some "bob") (Some "hunter2");
                   Arrives (Some "carol") (Some "pass");
                   Arrives (Some "alice") (Some "other");
                   HashSettles 1 "salt"; HashSettles 0 "pepper"]) /\
  NoDup (map username
           (store (run_turns (hasher := toy_hasher)
                     [Arrives (Some "bob") (Some "hunter2");
                      Arrives (Some "carol") (Some "pass");
                      Arrives (Some "alice") (Some "other");
                      HashSettles 1 "salt"; HashSettles 0 "pepper"]
                     (idle [alice_stored])))).
Proof.
  assert (H1 : NoDup (map username [alice_stored])).
  { simpl. constructor; [intros [] | constructor]. }
  assert (H2 : NoDup (arrivals [Arrives (Some "bob") (Some "hunter2");
                                Arrives (Some "carol") (Some "pass");
                                Arrives (Some "alice") (Some "other");
                                HashSettles 1 "salt"; HashSettles 0 "pepper"])).
  { simpl. repeat constructor; simpl; intuition discriminate. }
  split; [exact H1|]. split; [exact H2|].
  exact (distinct_arrivals_never_collide (hasher := toy_hasher) _ _ H1 H2).
Defined.

Example carol_before_bob :
  map username
      (store (run_turns (hasher := toy_hasher)
                [Arrives (Some "bob") (Some "hunter2");
                 Arrives (Some "carol") (Some "pass");
                 Arrives (Some "alice") (Some "other");
                 HashSettles 1 "salt"; HashSettles 0 "pepper"]
                (idle [alice_stored])))
  = ["alice"; "carol"; "bob"].
Proof. reflexivity. Qed.
